(** * Enhanced list view for Bases: grouping, property resolution and
    text formatting, embedded in Rocq.

    Source: [src/unnamed/part_000] (the current view revision) and
    [src/src/main.ts] (the earlier revision).  JavaScript strings are
    modelled as [string] (ASCII), JavaScript numbers that the code prints
    as integers as [Z], and the regular expressions the code applies are
    written out as the matchers they denote. *)

From Stdlib Require Import Ascii String ZArith Lia.
From stdpp Require Import base list strings pretty gmap sets.

Open Scope string_scope.
Set Warnings "-register-all".

(* ================================================================== *)
(** ** JavaScript values read from the metadata                         *)
(* ================================================================== *)

(** The values [valueToGroupString] and the resolvers receive: [null],
    [undefined], primitive strings, numbers and booleans, arrays, and
    objects with their own [toString] (the Bases [Value] objects); the
    object carries the string its [toString] returns. *)
Inductive value : Type :=
  | VNull
  | VUndefined
  | VStr (s : string)
  | VNum (n : Z)
  | VBool (b : bool)
  | VArr (l : list value)
  | VObj (str : string).

(** [Array.prototype.join] on already converted elements. *)
Fixpoint join (sep : string) (l : list string) : string :=
  match l with
  | [] => ""
  | [x] => x
  | x :: rest => x +:+ sep +:+ join sep rest
  end.

(** [String(v)] / [v.toString()]: arrays print their elements joined with
    [","], with [null] and [undefined] elements printed as [""]. *)
Fixpoint js_String (v : value) : string :=
  match v with
  | VNull => "null"
  | VUndefined => "undefined"
  | VStr s => s
  | VNum n => pretty n
  | VBool b => if b then "true" else "false"
  | VArr l =>
      join "," (map (fun e => match e with
                              | VNull | VUndefined => ""
                              | _ => js_String e
                              end) l)
  | VObj str => str
  end.

(** JavaScript truthiness, as used by [if (value)]. *)
Definition truthy (v : value) : bool :=
  match v with
  | VNull | VUndefined => false
  | VStr s => negb (String.eqb s "")
  | VNum n => negb (Z.eqb n 0)
  | VBool b => b
  | VArr _ | VObj _ => true
  end.

(** [typeof value === "object" && typeof value.toString === "function"]
    for a non-null value: arrays and objects. *)
Definition is_object_with_toString (v : value) : bool :=
  match v with
  | VArr _ | VObj _ => true
  | _ => false
  end.

(* ================================================================== *)
(** ** [stripWikilinks]                                                 *)
(* ================================================================== *)

(** [str.replace(/\[\[([^\]]+?)(?:\|([^\]]+))?\]\]/g,
                 (_match, link, alias) => alias ?? link)]

    The matcher below is the backtracking search of this regular
    expression at one position, written out on [list ascii]. *)

Definition is_rbr (c : ascii) : bool := Ascii.eqb c "]"%char.
Definition is_lbr (c : ascii) : bool := Ascii.eqb c "["%char.
Definition is_pipe (c : ascii) : bool := Ascii.eqb c "|"%char.

(** [[^\]]+] taken greedily: the longest prefix without [']'] and the
    rest of the input. *)
Fixpoint span_nonrbr (l : list ascii) : list ascii * list ascii :=
  match l with
  | [] => ([], [])
  | c :: t =>
      if is_rbr c then ([], l)
      else let '(p, r) := span_nonrbr t in (c :: p, r)
  end.

(** The closing ["]]"] at the head of the input: the rest after it. *)
Definition close_rr (l : list ascii) : option (list ascii) :=
  match l with
  | a :: b :: r => if is_rbr a && is_rbr b then Some r else None
  | _ => None
  end.

(** The lazy group [([^\]]+?)] holds [link] (non-empty); at each length
    the optional alias group [(?:\|([^\]]+))?] is tried first (greedy;
    a shorter alias cannot be followed by ["]]"]), then the closing
    ["]]"], and only then is one more character taken into [link].
    The result is the replacement ([alias ?? link]) and the rest of the
    input after the match. *)
Fixpoint link_loop (link rest : list ascii) : option (list ascii * list ascii) :=
  match rest with
  | [] => None
  | c :: t =>
      let alias_try :=
        if is_pipe c then
          let '(alias, r) := span_nonrbr t in
          match alias with
          | [] => None
          | _ :: _ =>
              match close_rr r with
              | Some r' => Some (alias, r')
              | None => None
              end
          end
        else None in
      match alias_try with
      | Some res => Some res
      | None =>
          match close_rr rest with
          | Some r' => Some (link, r')
          | None => if is_rbr c then None else link_loop (link ++ [c]) t
          end
      end
  end.

(** A match starting exactly at the head of the input: ["[["] and the
    first character of the link. *)
Definition match_at (s : list ascii) : option (list ascii * list ascii) :=
  match s with
  | a :: b :: c :: t =>
      if is_lbr a && is_lbr b && negb (is_rbr c) then link_loop [c] t else None
  | _ => None
  end.

(** The global replace: scan left to right, replace each match and resume
    after it, copy a character where no match starts. *)
Fixpoint strip_fuel (fuel : nat) (s : list ascii) : list ascii :=
  match fuel with
  | 0 => s
  | S f =>
      match s with
      | [] => []
      | c :: t =>
          match match_at s with
          | Some (rep, r) => rep ++ strip_fuel f r
          | None => c :: strip_fuel f t
          end
      end
  end.

Definition strip_list (s : list ascii) : list ascii := strip_fuel (length s) s.

Definition stripWikilinks (str : string) : string :=
  string_of_list_ascii (strip_list (list_ascii_of_string str)).

(* ================================================================== *)
(** ** [valueToGroupString]                                             *)
(* ================================================================== *)

Fixpoint valueToGroupString (v : value) : string :=
  match v with
  | VNull | VUndefined => "None"
  | _ =>
    if is_object_with_toString v then
      let str := js_String v in
      if String.eqb str "" || String.eqb str "null" || String.eqb str "undefined"
      then "None"
      else stripWikilinks str
    else
      match v with
      | VStr s => let r := stripWikilinks s in if String.eqb r "" then "None" else r
      | VNum n => pretty n
      | VBool b => if b then "True" else "False"
      | VArr l =>
          match l with
          | [] => "None"
          | _ => join ", " (map valueToGroupString l)
          end
      | _ => js_String v
      end
  end.

(* ================================================================== *)
(** ** Entries, the metadata cache and property resolution              *)
(* ================================================================== *)

(** [entry.getValue(propertyId)]: it may throw (for an identifier Bases
    does not know) or return a value ([null] is [Returns VNull]). *)
Inductive accessor_result : Type :=
  | Throws
  | Returns (v : value).

(** [app.metadataCache.getFileCache(entry.file)]: the frontmatter object
    (its own keys, in order) and the inline tag annotations. *)
Record FileCache : Type := {
  frontmatter : option (list (string * value));
  cache_tags : option (list string)
}.

(** A [BasesEntry] as the view reads it. *)
Record Entry : Type := {
  getValue : string -> accessor_result;
  fileCache : option FileCache;
  parent_name : option string   (* entry.file.parent?.name *)
}.

Definition SUBTITLE_PARENT_FOLDER : string := "file.folder".

(** [propertyId.slice(5)]. *)
Definition slice5 (s : string) : string := String.substring 5 (String.length s) s.

(** [propName in cache.frontmatter] followed by [cache.frontmatter[propName]]. *)
Fixpoint fm_lookup (fm : list (string * value)) (k : string) : option value :=
  match fm with
  | [] => None
  | (k', v) :: rest => if String.eqb k' k then Some v else fm_lookup rest k
  end.

(** [cache?.frontmatter && propName in cache.frontmatter ? cache.frontmatter[propName] : -]. *)
Definition frontmatter_field (e : Entry) (propName : string) : option value :=
  match fileCache e with
  | Some c =>
      match frontmatter c with
      | Some fm => fm_lookup fm propName
      | None => None
      end
  | None => None
  end.

(** [entry.file.parent?.name || fallback]: an absent or empty name gives
    the fallback. *)
Definition parent_or (e : Entry) (fallback : option string) : option string :=
  match parent_name e with
  | Some n => if String.eqb n "" then fallback else Some n
  | None => fallback
  end.

(** [getPropertyValueAsString] (group keys). *)
Definition getPropertyValueAsString (entry : Entry) (propertyId : string) : string :=
  let step1 :=
    match getValue entry propertyId with
    | Returns v => if truthy v then Some (valueToGroupString v) else None
    | Throws => None
    end in
  match step1 with
  | Some r => r
  | None =>
    let step2 :=
      if String.prefix "note." propertyId then
        match frontmatter_field entry (slice5 propertyId) with
        | Some v => Some (valueToGroupString v)
        | None => None
        end
      else None in
    match step2 with
    | Some r => r
    | None =>
      if String.eqb propertyId "file.folder" then
        match parent_or entry (Some "Root") with
        | Some n => n
        | None => "Root"
        end
      else "None"
    end
  end.

(** [getSubtitleText]; [None] is the [null] return (omit the subtitle). *)
Definition getSubtitleText (entry : Entry) (subtitleProperty : string) : option string :=
  if String.eqb subtitleProperty "file.folder"
     || String.eqb subtitleProperty SUBTITLE_PARENT_FOLDER then
    parent_or entry None
  else
    let step1 :=
      match getValue entry subtitleProperty with
      | Returns v =>
          if truthy v then
            let valueStr := js_String v in
            if negb (String.eqb valueStr "") && negb (String.eqb valueStr "null")
               && negb (String.eqb valueStr "undefined")
            then Some (stripWikilinks valueStr) else None
          else None
      | Throws => None
      end in
    match step1 with
    | Some r => Some r
    | None =>
      if String.prefix "note." subtitleProperty then
        match frontmatter_field entry (slice5 subtitleProperty) with
        | Some VNull | Some VUndefined | None => None
        | Some v => Some (stripWikilinks (js_String v))
        end
      else None
    end.

(* ================================================================== *)
(** ** [groupEntriesByProperty]: a [Map] kept in insertion order        *)
(* ================================================================== *)

(** [groups.has(groupKey)]. *)
Definition map_has {A} (groups : list (string * list A)) (k : string) : bool :=
  existsb (fun p => String.eqb (fst p) k) groups.

(** [groups.get(groupKey)!.push(entry)]. *)
Fixpoint map_get_push {A} (groups : list (string * list A)) (k : string) (x : A)
  : list (string * list A) :=
  match groups with
  | [] => []
  | (k', b) :: rest =>
      if String.eqb k' k then (k', (b ++ [x])%list) :: rest
      else (k', b) :: map_get_push rest k x
  end.

(** One iteration of the loop: [if (!groups.has(k)) groups.set(k, []);
    groups.get(k)!.push(entry)]; [set] of a new key appends it. *)
Definition group_step {A} (keyOf : A -> string) (groups : list (string * list A)) (entry : A)
  : list (string * list A) :=
  let groupKey := keyOf entry in
  let groups1 := if map_has groups groupKey then groups else (groups ++ [(groupKey, [])])%list in
  map_get_push groups1 groupKey entry.

Definition groupEntriesByProperty (entries : list Entry) (propertyId : string)
  : list (string * list Entry) :=
  fold_left (group_step (fun entry => getPropertyValueAsString entry propertyId)) entries [].

(** Keys in order of first occurrence (used to state the grouping). *)
Definition first_seen (l : list string) : list string :=
  fold_left (fun acc k => if existsb (String.eqb k) acc then acc else (acc ++ [k])%list) l [].

(* ================================================================== *)
(** ** Collapse keys and the collapse state                             *)
(* ================================================================== *)

(** [const nativeKey = nativeGroup.hasKey()
       ? (nativeGroup.key?.toString() ?? "__ungrouped__") : ""]. *)
Definition nativeKeyOf (hasKey : bool) (keyStr : option string) : string :=
  if hasKey then match keyStr with Some k => k | None => "__ungrouped__" end
  else "".

(** [nativeKey ? `${nativeKey}::${groupKey}` : groupKey]
    ([renderCustomGroup] and the primary level of [renderGroupWithSubGroups]). *)
Definition collapseKey (nativeKey groupKey : string) : string :=
  if String.eqb nativeKey "" then groupKey else nativeKey +:+ "::" +:+ groupKey.

(** [nativeKey ? `${nativeKey}::${groupKey}::${subGroupKey}`
                : `${groupKey}:${subGroupKey}`]. *)
Definition compoundKey (nativeKey groupKey subGroupKey : string) : string :=
  if String.eqb nativeKey "" then groupKey +:+ ":" +:+ subGroupKey
  else nativeKey +:+ "::" +:+ groupKey +:+ "::" +:+ subGroupKey.

Inductive level : Type := primary | secondary | tertiary.

(** [levels[levelOffset]] for the offsets the view uses (0 and 1). *)
Definition level_at (levelOffset : nat) : level :=
  match levelOffset with 0 => primary | 1 => secondary | _ => tertiary end.

(** The two sets of the view: [collapsedGroups], [collapsedSubGroups]. *)
Record CollapseState : Type := {
  collapsedGroups : gset string;
  collapsedSubGroups : gset string
}.

(** [(level === "secondary" || level === "tertiary")
       ? this.collapsedSubGroups : this.collapsedGroups]. *)
Definition set_for (lvl : level) (st : CollapseState) : gset string :=
  match lvl with
  | primary => collapsedGroups st
  | secondary | tertiary => collapsedSubGroups st
  end.

Definition update_set (lvl : level) (f : gset string -> gset string) (st : CollapseState)
  : CollapseState :=
  match lvl with
  | primary => {| collapsedGroups := f (collapsedGroups st);
                  collapsedSubGroups := collapsedSubGroups st |}
  | secondary | tertiary => {| collapsedGroups := collapsedGroups st;
                               collapsedSubGroups := f (collapsedSubGroups st) |}
  end.

(** The click handler installed by [renderGroupHeader]: [isCollapsed] is
    the flag the header was rendered with, the toggled key is
    [compoundKey || title]. *)
Definition header_click (isCollapsed : bool) (title : string) (compoundKey : option string)
    (lvl : level) (st : CollapseState) : CollapseState :=
  let groupKey :=
    match compoundKey with
    | Some k => if String.eqb k "" then title else k
    | None => title
    end in
  update_set lvl (fun s => if isCollapsed then s ∖ {[groupKey]} else s ∪ {[groupKey]}) st.

(** Rendering a plugin group with [renderCustomGroup] and clicking its
    header; [onDataUpdated] re-renders, so the next click sees the new
    state. *)
Definition click_custom_group (nativeKey groupKey : string) (levelOffset : nat)
    (st : CollapseState) : CollapseState :=
  let lvl := level_at levelOffset in
  let ck := collapseKey nativeKey groupKey in
  let isCollapsed := bool_decide (ck ∈ set_for lvl st) in
  header_click isCollapsed groupKey (Some ck) lvl st.

(** Rendering a sub-group in [renderGroupWithSubGroups] and clicking its
    header. *)
Definition click_sub_group (nativeKey groupKey subGroupKey : string) (levelOffset : nat)
    (st : CollapseState) : CollapseState :=
  let subLevel := level_at (S levelOffset) in
  let ck := compoundKey nativeKey groupKey subGroupKey in
  let isSubCollapsed := bool_decide (ck ∈ collapsedSubGroups st) in
  header_click isSubCollapsed subGroupKey (Some ck) subLevel st.

(** Rendering a native group (one with [hasKey()]) in [onDataUpdated] and
    clicking its header: the state is read under [nativeKey], the header
    gets the title [stripWikilinks(nativeGroup.key?.toString() ?? "")]
    and no compound key. *)
Definition click_native_group (keyStr : option string) (st : CollapseState) : CollapseState :=
  let nativeKey := nativeKeyOf true keyStr in
  let isNativeCollapsed := bool_decide (nativeKey ∈ collapsedGroups st) in
  let title := stripWikilinks (match keyStr with Some k => k | None => "" end) in
  header_click isNativeCollapsed title None primary st.

(* ================================================================== *)
(** ** [formatRelativeDate]                                             *)
(* ================================================================== *)

(** [now] is [Date.now()]; timestamps are whole milliseconds, so
    [Math.floor(a / b)] is [Z.div]. *)
Definition formatRelativeDate (timestamp now : Z) : string :=
  let diff := (now - timestamp)%Z in
  let seconds := (diff / 1000)%Z in
  let minutes := (seconds / 60)%Z in
  let hours := (minutes / 60)%Z in
  let days := (hours / 24)%Z in
  if Z.eqb days 0 then
    if Z.eqb hours 0 then
      if Z.eqb minutes 0 then "Just now"
      else pretty minutes +:+ "m ago"
    else pretty hours +:+ "h ago"
  else if Z.eqb days 1 then "Yesterday"
  else if Z.ltb days 7 then pretty days +:+ "d ago"
  else if Z.ltb days 30 then pretty (days / 7)%Z +:+ "w ago"
  else if Z.ltb days 365 then pretty (days / 30)%Z +:+ "mo ago"
  else pretty (days / 365)%Z +:+ "y ago".

(* ================================================================== *)
(** ** [truncateToLines]                                                *)
(* ================================================================== *)

Definition is_lt (c : ascii) : bool := Ascii.eqb c "<"%char.
Definition is_gt (c : ascii) : bool := Ascii.eqb c ">"%char.
Definition is_nl (c : ascii) : bool := Ascii.eqb c (ascii_of_nat 10).
Definition is_cr (c : ascii) : bool := Ascii.eqb c (ascii_of_nat 13).

(** The ASCII characters [String.prototype.trim] removes: tab, line
    feed, vertical tab, form feed, carriage return and space. *)
Definition is_ws (c : ascii) : bool :=
  let n := nat_of_ascii c in (Nat.leb 9 n && Nat.leb n 13) || Nat.eqb n 32.

Fixpoint drop_ws (l : list ascii) : list ascii :=
  match l with
  | [] => []
  | c :: t => if is_ws c then drop_ws t else l
  end.

(** [s.trim()]. *)
Definition trim_list (l : list ascii) : list ascii := rev (drop_ws (rev (drop_ws l))).

(** [text.replace(/<[^>]*>/g, "")]: from a ['<'] the greedy [[^>]*]
    runs to the next ['>'], which closes the match; with no ['>'] left
    no match starts anywhere, and the pending text is kept as it is.
    [pending] holds, reversed, the text read since an unclosed ['<']. *)
Fixpoint strip_tags_go (pending : option (list ascii)) (s : list ascii) : list ascii :=
  match s with
  | [] => match pending with Some p => rev p | None => [] end
  | c :: t =>
      match pending with
      | None => if is_lt c then strip_tags_go (Some [c]) t else c :: strip_tags_go None t
      | Some p => if is_gt c then strip_tags_go None t else strip_tags_go (Some (c :: p)) t
      end
  end.

Definition strip_tags (s : list ascii) : list ascii := strip_tags_go None s.

(** [s.split(/\r?\n/)]; [cur] is the current line, reversed. *)
Fixpoint split_go (cur : list ascii) (s : list ascii) : list (list ascii) :=
  match s with
  | [] => [rev cur]
  | c :: t =>
      if is_nl c then rev cur :: split_go [] t
      else if is_cr c then
        match t with
        | d :: t' => if is_nl d then rev cur :: split_go [] t' else split_go (c :: cur) t
        | [] => split_go (c :: cur) t
        end
      else split_go (c :: cur) t
  end.

Definition split_lines (s : list ascii) : list (list ascii) := split_go [] s.

(** [(l) => l.trim()] used as a filter: a line is kept when its trimmed
    text is non-empty. *)
Definition nonblank (l : list ascii) : bool :=
  match trim_list l with [] => false | _ => true end.

(** [Array.prototype.join] on lists of characters. *)
Fixpoint join_l (sep : list ascii) (ls : list (list ascii)) : list ascii :=
  match ls with
  | [] => []
  | [x] => x
  | x :: rest => x ++ sep ++ join_l sep rest
  end.

Definition ellipsis : list ascii := list_ascii_of_string "...".

Definition truncateToLines (text : string) (lines : nat) : string :=
  let stripped := trim_list (strip_tags (list_ascii_of_string text)) in
  let allLines := List.filter nonblank (split_lines stripped) in
  let truncated := join_l [" "%char] (firstn lines allLines) in
  let maxChars := lines * 80 in
  string_of_list_ascii
    (if Nat.ltb maxChars (length truncated)
     then trim_list (firstn maxChars truncated) ++ ellipsis
     else truncated).

(* ================================================================== *)
(** ** [getTags]                                                        *)
(* ================================================================== *)

(** [tagCache.tag.startsWith("#") ? tagCache.tag.slice(1) : tagCache.tag]. *)
Definition strip_hash (tag : string) : string :=
  if String.prefix "#" tag then String.substring 1 (String.length tag - 1) tag else tag.

(** [tags.includes(tag)] (strict equality with a string). *)
Definition includes (tags : list value) (tag : string) : bool :=
  existsb (fun v => match v with VStr s => String.eqb s tag | _ => false end) tags.

(** The frontmatter part: [cache?.frontmatter?.tags], pushed whole when it
    is an array, as one tag when it is a string. *)
Definition frontmatter_tags (entry : Entry) : list value :=
  match fileCache entry with
  | Some c =>
      match frontmatter c with
      | Some fm =>
          match fm_lookup fm "tags" with
          | Some fmTags =>
              if truthy fmTags then
                match fmTags with
                | VArr l => l
                | VStr s => [VStr s]
                | _ => []
                end
              else []
          | None => []
          end
      | None => []
      end
  | None => []
  end.

(** The inline part: [cache?.tags]. *)
Definition inline_tags (entry : Entry) : list string :=
  match fileCache entry with
  | Some c => match cache_tags c with Some ts => ts | None => [] end
  | None => []
  end.

Definition add_inline_tag (tags : list value) (t : string) : list value :=
  let tag := strip_hash t in
  if includes tags tag then tags else (tags ++ [VStr tag])%list.

Definition getTags (entry : Entry) : list value :=
  fold_left add_inline_tag (inline_tags entry) (frontmatter_tags entry).

(** The grouping of [entries] by [keyOf] as the specification states
    it: one bucket per key, keys in order of first occurrence, each
    bucket the entries with that key in input order. *)
Definition grouped {A} (keyOf : A -> string) (entries : list A) : list (string * list A) :=
  map (fun k => (k, List.filter (fun e => String.eqb (keyOf e) k) entries))
      (first_seen (map keyOf entries)).

(* ================================================================== *)
(** ** Predicates used in the statements                                *)
(* ================================================================== *)

Definition no_lbr (l : list ascii) : bool := forallb (fun c => negb (is_lbr c)) l.

(** No ['['] occurs between a ["[["] and the next [']'] (or the end of
    the text): wikilinks are not nested. *)
Fixpoint good (s : list ascii) : bool :=
  match s with
  | [] => true
  | c :: u =>
      (if is_lbr c then
         match u with
         | d :: t => if is_lbr d then no_lbr (span_nonrbr t).1 else true
         | [] => true
         end
       else true) && good u
  end.

Definition links_unnested (str : string) : bool := good (list_ascii_of_string str).

(** No match of the wikilink pattern starts anywhere in the text. *)
Fixpoint nomatch (s : list ascii) : bool :=
  match s with
  | [] => true
  | _ :: u => (match match_at s with Some _ => false | None => true end) && nomatch u
  end.

(** The first two characters are ["]]"]; the first is [']']. *)
Definition rr_head (l : list ascii) : bool :=
  match l with a :: b :: _ => is_rbr a && is_rbr b | _ => false end.
Definition rbr_head (l : list ascii) : bool :=
  match l with a :: _ => is_rbr a | [] => false end.

(** No ['<'] is followed, anywhere later, by a ['>']: the text contains
    no angle-bracket tag. *)
Fixpoint no_tag (l : list ascii) : bool :=
  match l with
  | [] => true
  | c :: x => (if is_lt c then negb (existsb is_gt x) else true) && no_tag x
  end.

(** The text after the first ['>'], if there is one. *)
Fixpoint after_gt (l : list ascii) : option (list ascii) :=
  match l with
  | [] => None
  | c :: t => if is_gt c then Some t else after_gt t
  end.

(* ================================================================== *)
(** ** [renderTextWithLinks]                                            *)
(* ================================================================== *)

(** The same search as [link_loop], keeping the capture groups apart:
    [match[1]] (the link), [match[2]] (the alias, if the optional group
    took part) and the rest of the input after the match. *)
Fixpoint link_loop_groups (link rest : list ascii)
  : option (list ascii * option (list ascii) * list ascii) :=
  match rest with
  | [] => None
  | c :: t =>
      let alias_try :=
        if is_pipe c then
          let '(alias, r) := span_nonrbr t in
          match alias with
          | [] => None
          | _ :: _ =>
              match close_rr r with
              | Some r' => Some (link, Some alias, r')
              | None => None
              end
          end
        else None in
      match alias_try with
      | Some res => Some res
      | None =>
          match close_rr rest with
          | Some r' => Some (link, None, r')
          | None => if is_rbr c then None else link_loop_groups (link ++ [c]) t
          end
      end
  end.

Definition match_groups (s : list ascii) : option (list ascii * option (list ascii) * list ascii) :=
  match s with
  | a :: b :: c :: t =>
      if is_lbr a && is_lbr b && negb (is_rbr c) then link_loop_groups [c] t else None
  | _ => None
  end.

(** What [renderTextWithLinks] appends to its container: text nodes
    ([container.appendText]) and link spans ([createSpan] with the text
    [displayText]; clicking opens [linkPath]). *)
Inductive segment : Type :=
  | SText (t : list ascii)
  | SLink (linkPath displayText : list ascii).

(** [if (match.index > lastIndex) container.appendText(text.slice(lastIndex, match.index))]
    and the final [if (lastIndex < text.length)]: a pending slice is
    appended only when it is not empty. *)
Definition flush (pending : list ascii) : list segment :=
  match pending with [] => [] | _ :: _ => [SText pending] end.

(** The [regex.exec] loop: [pending] is the text since [lastIndex]; the
    next match is the first position where the pattern matches, and the
    search resumes at [regex.lastIndex], just after it. *)
Fixpoint rtl_fuel (fuel : nat) (pending s : list ascii) : list segment :=
  match fuel with
  | 0 => flush (pending ++ s)
  | S f =>
      match s with
      | [] => flush pending
      | c :: t =>
          match match_groups s with
          | Some (link, alias, r) =>
              (flush pending ++ SLink link (match alias with Some a => a | None => link end)
                                  :: rtl_fuel f [] r)%list
          | None => rtl_fuel f (pending ++ [c])%list t
          end
      end
  end.

Definition renderTextWithLinks (text : string) : list segment :=
  let l := list_ascii_of_string text in rtl_fuel (length l) [] l.

(** The text a reader sees: text nodes and link labels, in order. *)
Definition seg_text (sg : segment) : list ascii :=
  match sg with SText t => t | SLink _ d => d end.

Definition visible_text (segs : list segment) : string :=
  string_of_list_ascii (concat (map seg_text segs)).

(* ================================================================== *)
(** ** [onDataUpdated] and the group renderers                         *)
(* ================================================================== *)

(** A group of [this.data.groupedData]: [hasKey()], [key?.toString()]
    ([None] for a [null] or [undefined] key) and its entries. *)
Record NativeGroup : Type := {
  ng_hasKey : bool;
  ng_key : option string;
  ng_entries : list Entry
}.

(** What the view appends to its container, in document order: group
    headers ([renderGroupHeader] with the level, the title passed, the
    count, the collapsed flag and the compound key passed), list items
    ([renderEntry]) and the ["No items to display"] element. *)
Inductive node : Type :=
  | NHeader (lvl : level) (title : string) (count : nat) (isCollapsed : bool)
            (ck : option string)
  | NEntry (e : Entry)
  | NEmptyState.

(** [if (x)] on a [string | null]. *)
Definition js_if_str (x : option string) : option string :=
  match x with
  | Some p => if String.eqb p "" then None else Some p
  | None => None
  end.

(** What a render call leaves in the DOM: the nodes it appended, in
    order, and whether an exception escaped from it. Nothing in the view
    catches an exception of [renderEntry], so it ends every enclosing
    loop and [onDataUpdated] itself, after the nodes appended so far. *)
Record rendered : Type := {
  out : list node;
  threw : bool
}.

Definition r_ret (ns : list node) : rendered := {| out := ns; threw := false |}.

(** [a; b]: [b] runs only when [a] returned normally. *)
Definition r_seq (a b : rendered) : rendered :=
  if threw a then a else {| out := out a ++ out b; threw := threw b |}.

(** [for (const x of xs) f(x)]. *)
Fixpoint r_for {X : Type} (f : X -> rendered) (xs : list X) : rendered :=
  match xs with
  | [] => r_ret []
  | x :: xs' => r_seq (f x) (r_for f xs')
  end.

Section Render.

(** Whether [renderEntry] returns normally for an entry under the options
    of the current call. It throws, for instance, when tags are shown and
    a frontmatter tag is not a string ([tag.startsWith] at a non-string),
    or when [entry.getValue] throws for a property of the order. *)
Context (renderEntry_ok : Entry -> bool).

(** [renderEntry] appends its list item first ([container.createDiv]),
    then fills it; an exception leaves that item in place. *)
Definition renderEntry (e : Entry) : rendered :=
  {| out := [NEntry e]; threw := negb (renderEntry_ok e) |}.

Definition renderCustomGroup (st : CollapseState) (nativeKey groupKey : string)
    (entries : list Entry) (levelOffset : nat) : rendered :=
  let lvl := level_at levelOffset in
  let ck := collapseKey nativeKey groupKey in
  let isCollapsed := bool_decide (ck ∈ set_for lvl st) in
  r_seq (r_ret [NHeader lvl groupKey (length entries) isCollapsed (Some ck)])
        (if isCollapsed then r_ret [] else r_for renderEntry entries).

Definition render_sub_group (st : CollapseState) (nativeKey groupKey : string)
    (subLevel : level) (sg : string * list Entry) : rendered :=
  let '(subGroupKey, subEntries) := sg in
  let ck := compoundKey nativeKey groupKey subGroupKey in
  let isSubCollapsed := bool_decide (ck ∈ collapsedSubGroups st) in
  r_seq (r_ret [NHeader subLevel subGroupKey (length subEntries) isSubCollapsed (Some ck)])
        (if isSubCollapsed then r_ret [] else r_for renderEntry subEntries).

Definition renderGroupWithSubGroups (st : CollapseState) (nativeKey groupKey : string)
    (entries : list Entry) (subGroupProperty : string) (levelOffset : nat) : rendered :=
  let primaryLevel := level_at levelOffset in
  let subLevel := level_at (S levelOffset) in
  let ck := collapseKey nativeKey groupKey in
  let isCollapsed := bool_decide (ck ∈ set_for primaryLevel st) in
  r_seq (r_ret [NHeader primaryLevel groupKey (length entries) isCollapsed (Some ck)])
        (if isCollapsed then r_ret []
         else r_for (render_sub_group st nativeKey groupKey subLevel)
                    (groupEntriesByProperty entries subGroupProperty)).

(** The plugin grouping inside one native group. *)
Definition render_plugin (st : CollapseState) (nativeKey : string) (entries : list Entry)
    (groupByProperty subGroupByProperty : option string) (levelOffset : nat) : rendered :=
  match js_if_str groupByProperty with
  | Some gp =>
      r_for (fun '(groupKey, es) =>
               match js_if_str subGroupByProperty with
               | Some sp => renderGroupWithSubGroups st nativeKey groupKey es sp levelOffset
               | None => renderCustomGroup st nativeKey groupKey es levelOffset
               end)
            (groupEntriesByProperty entries gp)
  | None =>
      match js_if_str subGroupByProperty with
      | Some sp =>
          r_for (fun '(groupKey, es) => renderCustomGroup st nativeKey groupKey es levelOffset)
                (groupEntriesByProperty entries sp)
      | None => r_for renderEntry entries
      end
  end.

(** One iteration of the loop over [this.data.groupedData]. *)
Definition render_native (st : CollapseState) (groupByProperty subGroupByProperty : option string)
    (levelOffset : nat) (ng : NativeGroup) : rendered :=
  let nativeKey := nativeKeyOf (ng_hasKey ng) (ng_key ng) in
  if ng_hasKey ng then
    let isNativeCollapsed := bool_decide (nativeKey ∈ collapsedGroups st) in
    r_seq (r_ret [NHeader primary (stripWikilinks (match ng_key ng with Some k => k | None => "" end))
                          (length (ng_entries ng)) isNativeCollapsed None])
          (if isNativeCollapsed then r_ret []
           else render_plugin st nativeKey (ng_entries ng) groupByProperty subGroupByProperty
                              levelOffset)
  else render_plugin st nativeKey (ng_entries ng) groupByProperty subGroupByProperty levelOffset.

(** [onDataUpdated]: the rendered nodes for the groups of the query, the
    configured [primaryGroup] and [subGroup] properties (as returned by
    [getConfigPropertyId]) and the collapse state. [totalEntries] is only
    read after the loop, so it is summed up front. *)
Definition onDataUpdated (groupedData : list NativeGroup)
    (groupByProperty subGroupByProperty : option string) (st : CollapseState) : rendered :=
  let hasNativeGrouping := existsb ng_hasKey groupedData in
  let levelOffset := if hasNativeGrouping then 1 else 0 in
  let totalEntries := fold_left (fun n ng => n + length (ng_entries ng)) groupedData 0 in
  r_seq (r_for (render_native st groupByProperty subGroupByProperty levelOffset) groupedData)
        (r_ret (if Nat.eqb totalEntries 0 then [NEmptyState] else [])).

End Render.

(** The entries rendered, in order. *)
Definition rendered_entries (ns : list node) : list Entry :=
  omap (fun n => match n with NEntry e => Some e | _ => None end) ns.

(* ================================================================== *)
(** ** [renderEntry]: tag labels                                        *)
(* ================================================================== *)

(** [tag.startsWith("#") ? tag : `#${tag}`] for one element of
    [getTags(entry)]; a value that is not a string has no [startsWith]
    method and the call throws a [TypeError] ([None]). *)
Definition tag_label (tag : value) : option string :=
  match tag with
  | VStr s => Some (if String.prefix "#" s then s else "#" +:+ s)
  | _ => None
  end.

(** The tags block of [renderEntry] (with [showTags] on) returns normally
    exactly when every tag of [getTags(entry)] has a label. *)
Definition tags_render_ok (entry : Entry) : bool :=
  forallb (fun tag => match tag_label tag with Some _ => true | None => false end) (getTags entry).

(* ================================================================== *)
(** ** [getPreview]                                                     *)
(* ================================================================== *)

Definition descFields : list string := ["description"; "summary"; "excerpt"; "abstract"].

(** [for (const field of descFields) if (cache.frontmatter[field]) return ...]. *)
Fixpoint first_desc (fm : list (string * value)) (fields : list string) : option value :=
  match fields with
  | [] => None
  | field :: rest =>
      match fm_lookup fm field with
      | Some v => if truthy v then Some v else first_desc fm rest
      | None => first_desc fm rest
      end
  end.

Definition getPreview (entry : Entry) (lines : nat) (previewProperty : option string)
  : option string :=
  match js_if_str previewProperty with
  | Some pp =>
      let step1 :=
        match getValue entry pp with
        | Returns v =>
            if truthy v then
              let valueStr := js_String v in
              if negb (String.eqb valueStr "") && negb (String.eqb valueStr "null")
                 && negb (String.eqb valueStr "undefined")
              then Some (truncateToLines (stripWikilinks valueStr) lines) else None
            else None
        | Throws => None
        end in
      match step1 with
      | Some r => Some r
      | None =>
          if String.prefix "note." pp then
            match frontmatter_field entry (slice5 pp) with
            | Some VNull | Some VUndefined | None => None
            | Some v => Some (truncateToLines (stripWikilinks (js_String v)) lines)
            end
          else None
      end
  | None =>
      match fileCache entry with
      | Some c =>
          match frontmatter c with
          | Some fm =>
              match first_desc fm descFields with
              | Some v => Some (truncateToLines (js_String v) lines)
              | None => None
              end
          | None => None
          end
      | None => None
      end
  end.

(* ================================================================== *)
(** ** [getThumbnail]                                                   *)
(* ================================================================== *)

Definition imageFields : list string := ["image"; "cover"; "thumbnail"; "banner"; "feature_image"].

Definition lower (c : ascii) : ascii :=
  let n := nat_of_ascii c in
  if Nat.leb 65 n && Nat.leb n 90 then ascii_of_nat (n + 32) else c.

(** [s.endsWith(suffix)] on lists of characters. *)
Definition ends_with (l suffix : list ascii) : bool :=
  Nat.leb (length suffix) (length l) &&
  bool_decide (skipn (length l - length suffix) l = suffix).

(** [/\.(png|jpg|jpeg|gif|webp|svg)$/i.test(link)]. *)
Definition is_image_link (link : string) : bool :=
  existsb (fun ext => ends_with (map lower (list_ascii_of_string link)) (list_ascii_of_string ext))
          [".png"; ".jpg"; ".jpeg"; ".gif"; ".webp"; ".svg"].

(** [value.endsWith("]]")]. *)
Definition ends_with_rr (v : string) : bool :=
  ends_with (list_ascii_of_string v) (list_ascii_of_string "]]").

(** [value.slice(2, -2)] for a value of at least four characters. *)
Definition slice_link (v : string) : string := String.substring 2 (String.length v - 4) v.

Section Thumbnail.
  (** [metadataCache.getFirstLinkpathDest(_, entry.file.path)] for the
      entry at hand, and [vault.getResourcePath]. *)
  Context {TFile : Type} (getFirstLinkpathDest : string -> option TFile)
          (getResourcePath : TFile -> string).

Fixpoint thumb_from_fields (fm : list (string * value)) (fields : list string) : option string :=
  match fields with
  | [] => None
  | field :: rest =>
      match fm_lookup fm field with
      | Some (VStr v) =>
          if String.eqb v "" then thumb_from_fields fm rest
          else if String.prefix "[[" v && ends_with_rr v then
            match getFirstLinkpathDest (slice_link v) with
            | Some f => Some (getResourcePath f)
            | None => thumb_from_fields fm rest
            end
          else if negb (String.prefix "http" v) then
            match getFirstLinkpathDest v with
            | Some f => Some (getResourcePath f)
            | None => thumb_from_fields fm rest
            end
          else Some v
      | _ => thumb_from_fields fm rest
      end
  end.

Fixpoint thumb_from_embeds (embeds : list string) : option string :=
  match embeds with
  | [] => None
  | link :: rest =>
      if negb (String.eqb link "") && is_image_link link then
        match getFirstLinkpathDest link with
        | Some f => Some (getResourcePath f)
        | None => thumb_from_embeds rest
        end
      else thumb_from_embeds rest
  end.

(** [getThumbnail]; [embeds] is [cache.embeds] (the file cache of
    [Entry] does not carry it). *)
Definition getThumbnail (entry : Entry) (embeds : option (list string)) : option string :=
  let fromFm :=
    match fileCache entry with
    | Some c => match frontmatter c with Some fm => thumb_from_fields fm imageFields | None => None end
    | None => None
    end in
  match fromFm with
  | Some u => Some u
  | None =>
      match fileCache entry, embeds with
      | Some _, Some es => thumb_from_embeds es
      | _, _ => None
      end
  end.

End Thumbnail.

(** No ['['] is directly followed by another ['[']: the text holds no
    ["[["]. *)
Fixpoint no_double_lbr (l : list ascii) : bool :=
  match l with
  | a :: ((b :: _) as t) => negb (is_lbr a && is_lbr b) && no_double_lbr t
  | _ => true
  end.

Definition level_eqb (a b : level) : bool :=
  match a, b with
  | primary, primary | secondary, secondary | tertiary, tertiary => true
  | _, _ => false
  end.

(** The sum of the counts shown by the headers of level [lvl]. *)
Definition header_count_sum (lvl : level) (ns : list node) : nat :=
  fold_right (fun n acc => match n with
                           | NHeader l _ c _ _ => if level_eqb l lvl then c + acc else acc
                           | _ => acc
                           end) 0 ns.

(* ================================================================== *)
(** ** Concrete inputs                                                  *)
(* ================================================================== *)

(** An entry whose Bases accessor returns, for [note.status], an object
    printing as ["null"], while its frontmatter has [status: done]. *)
Definition entry_null_status : Entry := {|
  getValue := fun pid => if String.eqb pid "note.status" then Returns (VObj "null") else Throws;
  fileCache := Some {| frontmatter := Some [("status", VStr "done")]; cache_tags := None |};
  parent_name := Some "Projects"
|}.

(** An entry whose Bases accessor returns, for [file.folder], an object
    printing as [""], in the folder [Projects]. *)
Definition entry_empty_folder : Entry := {|
  getValue := fun pid => if String.eqb pid "file.folder" then Returns (VObj "") else Throws;
  fileCache := None;
  parent_name := Some "Projects"
|}.

(** An entry whose frontmatter lists the tag [a] twice. *)
Definition entry_dup_fm_tags : Entry := {|
  getValue := fun _ => Throws;
  fileCache := Some {| frontmatter := Some [("tags", VArr [VStr "a"; VStr "a"])];
                       cache_tags := None |};
  parent_name := None
|}.

(** The end-to-end scenario of the specification: frontmatter
    [tags: ["a","b"]] and the inline tag [#b]. *)
Definition entry_tags_ab : Entry := {|
  getValue := fun _ => Throws;
  fileCache := Some {| frontmatter := Some [("tags", VArr [VStr "a"; VStr "b"])];
                       cache_tags := Some ["#b"] |};
  parent_name := None
|}.

Definition empty_collapse_state : CollapseState :=
  {| collapsedGroups := ∅; collapsedSubGroups := ∅ |}.

(** An entry whose frontmatter [image] field is an external URL. *)
Definition entry_image_url : Entry := {|
  getValue := fun _ => Throws;
  fileCache := Some {| frontmatter := Some [("image", VStr "https://example.org/a.png")];
                       cache_tags := None |};
  parent_name := None
|}.

(** An entry whose frontmatter [tags] array holds a number. *)
Definition entry_numeric_tag : Entry := {|
  getValue := fun _ => Throws;
  fileCache := Some {| frontmatter := Some [("tags", VArr [VNum 2024])];
                       cache_tags := None |};
  parent_name := None
|}.

(** The query result of a view without native grouping: one group,
    holding [entry_null_status]. *)
Definition groupedData_one : list NativeGroup :=
  [{| ng_hasKey := false; ng_key := None; ng_entries := [entry_null_status] |}].

(* ================================================================== *)
(** ** Examples                                                         *)
(* ================================================================== *)

Example strip_ex1 : stripWikilinks "see [[Foo]] and [[Bar|baz]]" = "see Foo and baz".
Proof. reflexivity. Qed.
Example strip_ex2 : stripWikilinks "[[a|b|c]]" = "b|c".
Proof. reflexivity. Qed.
Example strip_ex3 : stripWikilinks "[[[[a]]]]" = "[[a]]".
Proof. reflexivity. Qed.
Example vtg_ex1 : valueToGroupString (VArr [VStr "a"; VNum 3]) = "a,3".
Proof. reflexivity. Qed.
Example vtg_ex2 : valueToGroupString (VNum (-12)) = "-12".
Proof. reflexivity. Qed.
Example trunc_ex1 : truncateToLines "<p>Hello</p>
world

third" 2 = "Hello world".
Proof. reflexivity. Qed.
Example date_ex1 : formatRelativeDate 0 (3 * 86400000) = "3d ago".
Proof. reflexivity. Qed.
Example group_ex1 : first_seen ["done"; "done"; "todo"] = ["done"; "todo"].
Proof. reflexivity. Qed.

(* ================================================================== *)
(** ** [stripWikilinks]: the matcher                                    *)
(* ================================================================== *)

Lemma is_rbr_true c : is_rbr c = true -> c = "]"%char.
Proof. unfold is_rbr. by rewrite Ascii.eqb_eq. Qed.
Lemma is_lbr_true c : is_lbr c = true -> c = "["%char.
Proof. unfold is_lbr. by rewrite Ascii.eqb_eq. Qed.

Lemma span_nonrbr_app l : l = ((span_nonrbr l).1 ++ (span_nonrbr l).2)%list.
Proof.
  induction l as [|c t IH]; simpl; [done|].
  destruct (is_rbr c); [done|].
  destruct (span_nonrbr t) as [p r]; simpl in *. by f_equal.
Qed.

Lemma span_nonrbr_fst l x : x ∈ (span_nonrbr l).1 -> is_rbr x = false.
Proof.
  induction l as [|c t IH]; simpl; [by rewrite elem_of_nil|].
  destruct (is_rbr c) eqn:Hc; simpl; [by rewrite elem_of_nil|].
  destruct (span_nonrbr t) as [p r]; simpl in *.
  rewrite elem_of_cons. intros [->|H]; auto.
Qed.

Lemma span_nonrbr_snd l : (span_nonrbr l).2 = [] \/ rbr_head (span_nonrbr l).2 = true.
Proof.
  induction l as [|c t IH]; simpl; [by left|].
  destruct (is_rbr c) eqn:Hc; [by right|].
  by destruct (span_nonrbr t) as [p r].
Qed.

(** Splitting at the first [']'] of a text that starts with no [']']. *)
Lemma span_nonrbr_app_head p x :
  (forall c, c ∈ p -> is_rbr c = false) -> (x = [] \/ rbr_head x = true) ->
  span_nonrbr (p ++ x)%list = (p, x).
Proof.
  intros Hp Hx. induction p as [|c p IH]; simpl.
  - destruct Hx as [->|Hx]; [done|]. destruct x as [|a x]; [done|]. simpl in *. by rewrite Hx.
  - rewrite (Hp c) by set_solver. rewrite IH; [done|]. intros; apply Hp; set_solver.
Qed.

Lemma close_rr_None_iff l : close_rr l = None <-> rr_head l = false.
Proof.
  destruct l as [|a [|b l]]; simpl; try done.
  destruct (is_rbr a && is_rbr b); done.
Qed.

Lemma close_rr_nonrbr c t : is_rbr c = false -> close_rr (c :: t) = None.
Proof. intros Hc. destruct t; simpl; [done|]. by rewrite Hc. Qed.

Lemma link_loop_spec rest link :
  match link_loop link rest with
  | None => close_rr (span_nonrbr rest).2 = None
  | Some (rep, r) =>
      close_rr (span_nonrbr rest).2 = Some r /\ (link <> [] -> rep <> []) /\
      (forall x, x ∈ rep -> x ∈ link \/ x ∈ (span_nonrbr rest).1)
  end.
Proof.
  revert link. induction rest as [|c t IH]; intros link; [done|].
  cbn [link_loop span_nonrbr].
  destruct (is_rbr c) eqn:Hc.
  - apply is_rbr_true in Hc. subst c. simpl.
    destruct t as [|d t]; simpl; [done|].
    destruct (is_rbr d); simpl; [|done].
    split; [done|]. split; [done|]. auto.
  - rewrite (close_rr_nonrbr c t Hc).
    destruct (span_nonrbr t) as [p r] eqn:Es. cbn [fst snd].
    assert (Hdef : match link_loop (link ++ [c])%list t with
                   | Some (rep, r0) =>
                       close_rr r = Some r0 /\ (link <> [] -> rep <> []) /\
                       (forall x, x ∈ rep -> x ∈ link \/ x ∈ c :: p)
                   | None => close_rr r = None
                   end).
    { specialize (IH (link ++ [c])%list). simpl in IH.
      destruct (link_loop (link ++ [c])%list t) as [[rep r0]|]; [|done].
      destruct IH as (H1 & H2 & H3). split; [done|]. split.
      - intros _. apply H2. intros Hnil. by destruct link.
      - intros x Hx. destruct (H3 x Hx) as [Hl|Hl]; [|set_solver].
        apply elem_of_app in Hl. set_solver. }
    destruct (is_pipe c); simpl; [|exact Hdef].
    destruct p as [|a p]; simpl; [exact Hdef|].
    destruct (close_rr r) as [r'|] eqn:Ecl; simpl.
    + split; [done|]. split; [done|]. set_solver.
    + exact Hdef.
Qed.

(** What a match at the head of the text consists of. *)
Lemma match_at_Some s rep r :
  match_at s = Some (rep, r) ->
  exists t, s = "["%char :: "["%char :: t /\ close_rr (span_nonrbr t).2 = Some r /\
            rep <> [] /\ (forall x, x ∈ rep -> x ∈ (span_nonrbr t).1).
Proof.
  destruct s as [|a [|b [|c t]]]; simpl; try done.
  destruct (is_lbr a) eqn:Ha; simpl; [|done].
  destruct (is_lbr b) eqn:Hb; simpl; [|done].
  destruct (is_rbr c) eqn:Hc; simpl; [done|].
  apply is_lbr_true in Ha, Hb. subst a b. intros Hm.
  exists (c :: t). pose proof (link_loop_spec t [c]) as Hs. rewrite Hm in Hs.
  destruct Hs as (H1 & H2 & H3). simpl. rewrite Hc.
  destruct (span_nonrbr t) as [p q]; simpl in *.
  split; [done|]. split; [done|]. split; [by apply H2|].
  intros x Hx. destruct (H3 x Hx) as [Hl|Hl]; set_solver.
Qed.

Lemma match_at_lbr2_None t :
  match_at ("["%char :: "["%char :: t) = None <->
  (span_nonrbr t).1 = [] \/ close_rr (span_nonrbr t).2 = None.
Proof.
  destruct t as [|c t]; simpl; [by split; [left|]|].
  destruct (is_rbr c) eqn:Hc; simpl; [by split; [left|]|].
  pose proof (link_loop_spec t [c]) as Hs.
  destruct (span_nonrbr t) as [p q]; simpl in *.
  destruct (link_loop [c] t) as [[rep r]|]; split; try done.
  - intros [H|H]; [done|]. destruct Hs as [Hs _]. congruence.
  - intros _. by right.
Qed.

Lemma match_at_head_nonlbr a s : is_lbr a = false -> match_at (a :: s) = None.
Proof. intros Ha. destruct s as [|b [|c t]]; simpl; try done. by rewrite Ha. Qed.

Lemma match_at_second_nonlbr a b s : is_lbr b = false -> match_at (a :: b :: s) = None.
Proof. intros Hb. destruct s as [|c t]; simpl; try done. rewrite Hb. by rewrite andb_false_r. Qed.

Lemma match_at_length s rep r : match_at s = Some (rep, r) -> length r < length s.
Proof.
  intros (t & -> & Hc & _ & _)%match_at_Some.
  pose proof (span_nonrbr_app t) as Ht.
  destruct (span_nonrbr t) as [p q]; simpl in *.
  destruct q as [|a [|b q]]; simpl in Hc; try done.
  destruct (is_rbr a && is_rbr b); [|done]. injection Hc as <-.
  rewrite Ht. simpl. rewrite length_app. simpl. lia.
Qed.

Lemma match_at_rep_chars s rep r x :
  match_at s = Some (rep, r) -> x ∈ rep -> is_rbr x = false.
Proof.
  intros (t & -> & _ & _ & Hx)%match_at_Some Hin.
  by apply (span_nonrbr_fst t), Hx.
Qed.

(* ------------------------------------------------------------------ *)
(** The scan: fuel and its unfolding equation. *)

Lemma strip_fuel_succ f s : length s <= f -> strip_fuel (S f) s = strip_fuel f s.
Proof.
  revert s. induction f as [|f IH]; intros s Hs.
  - destruct s; simpl in *; [done|lia].
  - destruct s as [|c t]; [done|]. simpl in Hs.
    change (match match_at (c :: t) with
            | Some (rep, r) => (rep ++ strip_fuel (S f) r)%list
            | None => c :: strip_fuel (S f) t
            end =
            match match_at (c :: t) with
            | Some (rep, r) => (rep ++ strip_fuel f r)%list
            | None => c :: strip_fuel f t
            end).
    destruct (match_at (c :: t)) as [[rep r]|] eqn:Hm.
    + apply match_at_length in Hm. simpl in Hm. rewrite IH; [done|lia].
    + rewrite IH; [done|lia].
Qed.

Lemma strip_fuel_enough f s : length s <= f -> strip_fuel f s = strip_list s.
Proof.
  intros Hf. unfold strip_list.
  replace f with (length s + (f - length s)) by lia.
  generalize (f - length s) as k. intros k.
  induction k as [|k IH]; [by rewrite Nat.add_0_r|].
  rewrite Nat.add_succ_r, strip_fuel_succ by lia. exact IH.
Qed.

Lemma strip_list_nil : strip_list [] = [].
Proof. done. Qed.

Lemma strip_list_cons c t :
  strip_list (c :: t) =
  match match_at (c :: t) with
  | Some (rep, r) => (rep ++ strip_list r)%list
  | None => c :: strip_list t
  end.
Proof.
  unfold strip_list at 1.
  change (match match_at (c :: t) with
          | Some (rep, r) => (rep ++ strip_fuel (length t) r)%list
          | None => c :: strip_list t
          end =
          match match_at (c :: t) with
          | Some (rep, r) => (rep ++ strip_list r)%list
          | None => c :: strip_list t
          end).
  destruct (match_at (c :: t)) as [[rep r]|] eqn:Hm; [|done].
  apply match_at_length in Hm. simpl in Hm.
  rewrite strip_fuel_enough by lia. done.
Qed.

Lemma strip_list_nonempty l : l <> [] -> strip_list l <> [].
Proof.
  destruct l as [|c t]; [done|]. intros _. rewrite strip_list_cons.
  destruct (match_at (c :: t)) as [[rep r]|] eqn:Hm; [|done].
  apply match_at_Some in Hm as (_ & _ & _ & Hne & _).
  destruct rep; done.
Qed.

Lemma nomatch_strip_id t : nomatch t = true -> strip_list t = t.
Proof.
  induction t as [|c t IH]; [done|]. cbn [nomatch].
  destruct (match_at (c :: t)) eqn:Hm; [done|]. intros Ht.
  rewrite strip_list_cons, Hm. rewrite IH; [done|]. by destruct (nomatch t).
Qed.

Lemma strip_list_nolbr_prefix r x :
  no_lbr r = true -> strip_list (r ++ x)%list = (r ++ strip_list x)%list.
Proof.
  induction r as [|c r IH]; [done|]. simpl. intros [Hc Hr]%andb_prop.
  apply negb_true_iff in Hc.
  rewrite strip_list_cons, match_at_head_nonlbr by done. by rewrite IH.
Qed.

Lemma nomatch_nolbr_prefix r x :
  no_lbr r = true -> nomatch x = true -> nomatch (r ++ x)%list = true.
Proof.
  induction r as [|c r IH]; [done|]. intros Hcr Hx.
  unfold no_lbr in Hcr. simpl in Hcr. apply andb_prop in Hcr as [Hc Hr].
  apply negb_true_iff in Hc. cbn [app nomatch].
  rewrite match_at_head_nonlbr by done. simpl. auto.
Qed.

Lemma good_app l r : good (l ++ r)%list = true -> good r = true.
Proof.
  induction l as [|c l IH]; [done|]. simpl. intros [_ H]%andb_prop. auto.
Qed.

Lemma good_cons c u : good (c :: u) = true -> good u = true.
Proof. apply (good_app [c]). Qed.

Lemma no_lbr_spec l : no_lbr l = true <-> forall x, x ∈ l -> is_lbr x = false.
Proof.
  unfold no_lbr. rewrite forallb_forall. split.
  - intros H x Hx. apply negb_true_iff, H. by apply list_elem_of_In.
  - intros H x Hx. apply negb_true_iff, H. by apply list_elem_of_In.
Qed.

(** In a text with unnested wikilinks, the replacement text contains no
    ['['], and the rest after the match is again unnested. *)
Lemma good_match_at s rep r :
  good s = true -> match_at s = Some (rep, r) -> no_lbr rep = true /\ good r = true.
Proof.
  intros Hg Hm. pose proof Hm as (t & -> & Hc & _ & Hx)%match_at_Some.
  simpl in Hg. apply andb_prop in Hg as [Hrun Hg].
  apply andb_prop in Hg as [_ Hg]. split.
  - apply no_lbr_spec. intros x Hin. by apply (proj1 (no_lbr_spec _) Hrun), Hx.
  - rewrite (span_nonrbr_app t) in Hg.
    destruct (span_nonrbr t) as [p q]; simpl in *.
    destruct q as [|a [|b q]]; simpl in Hc; try done.
    destruct (is_rbr a && is_rbr b); [|done]. injection Hc as <-.
    by apply (good_app (p ++ [a; b])%list); rewrite <-app_assoc.
Qed.

Lemma rr_head_cons c l : rr_head (c :: l) = is_rbr c && rbr_head l.
Proof. destruct l; simpl; [by rewrite andb_false_r|done]. Qed.

Lemma rbr_head_strip q : rbr_head (strip_list q) = rbr_head q.
Proof.
  destruct q as [|c t]; [done|]. rewrite strip_list_cons.
  destruct (match_at (c :: t)) as [[rep r]|] eqn:Hm; [|done].
  pose proof Hm as (t0 & Hs & _ & Hne & _)%match_at_Some. injection Hs as -> _.
  destruct rep as [|e rep]; [done|]. simpl.
  rewrite (match_at_rep_chars _ _ _ e Hm); [done|set_solver].
Qed.

Lemma rr_head_strip q : rbr_head q = true -> rr_head (strip_list q) = rr_head q.
Proof.
  destruct q as [|c t]; [done|]. intros Hc. simpl in Hc.
  rewrite strip_list_cons, match_at_head_nonlbr.
  - by rewrite !rr_head_cons, rbr_head_strip.
  - apply is_rbr_true in Hc. by subst c.
Qed.

(** The central step: a single pass over an unnested text leaves no
    match behind. *)
Lemma good_strip_nomatch s : good s = true -> nomatch (strip_list s) = true.
Proof.
  induction s as [s IH] using (induction_ltof1 _ (@length ascii)). unfold ltof in IH.
  destruct s as [|c t]; [done|]. intros Hg. rewrite strip_list_cons.
  destruct (match_at (c :: t)) as [[rep r]|] eqn:Hm.
  - destruct (good_match_at _ _ _ Hg Hm) as [Hrep Hr].
    apply nomatch_nolbr_prefix; [done|].
    apply IH; [by apply match_at_length in Hm|done].
  - cbn [nomatch]. apply andb_true_intro. split.
    2:{ apply IH; [simpl; lia|]. by apply (good_cons c). }
    destruct (is_lbr c) eqn:Hc; [|by rewrite match_at_head_nonlbr].
    apply is_lbr_true in Hc. subst c.
    destruct t as [|d t']; [done|].
    rewrite strip_list_cons.
    destruct (match_at (d :: t')) as [[rep r]|] eqn:Hm'.
    + pose proof (good_match_at _ _ _ (good_cons _ _ Hg) Hm') as [Hrep _].
      pose proof Hm' as (_ & _ & _ & Hne & _)%match_at_Some.
      destruct rep as [|e rep]; [done|].
      unfold no_lbr in Hrep. simpl in Hrep. apply andb_prop in Hrep as [He _].
      apply negb_true_iff in He.
      simpl app. by rewrite match_at_second_nonlbr.
    + destruct (is_lbr d) eqn:Hd; [|by rewrite match_at_second_nonlbr].
      apply is_lbr_true in Hd. subst d.
      assert (Hrun : no_lbr (span_nonrbr t').1 = true).
      { simpl in Hg. by apply andb_prop in Hg as [? _]. }
      apply match_at_lbr2_None in Hm.
      pose proof (span_nonrbr_app t') as Ht'.
      pose proof (span_nonrbr_fst t') as Hf.
      pose proof (span_nonrbr_snd t') as Hs.
      destruct (span_nonrbr t') as [p q]; cbn [fst snd] in *.
      rewrite Ht', strip_list_nolbr_prefix by done.
      rewrite (proj2 (match_at_lbr2_None _)); [done|].
      rewrite span_nonrbr_app_head.
      * simpl. destruct Hm as [Hm|Hm]; [by left|right].
        apply close_rr_None_iff. apply close_rr_None_iff in Hm.
        destruct Hs as [->|Hs]; [done|]. by rewrite rr_head_strip.
      * exact Hf.
      * destruct Hs as [->|Hs]; [by left|right]. by rewrite rbr_head_strip.
Qed.

Lemma stripWikilinks_nonempty str : str <> "" -> stripWikilinks str <> "".
Proof.
  intros Hs. unfold stripWikilinks.
  assert (list_ascii_of_string str <> []) as Hl.
  { intros Hnil. apply Hs. rewrite <-(string_of_list_ascii_of_string str), Hnil. done. }
  pose proof (strip_list_nonempty _ Hl) as Hne.
  destruct (strip_list (list_ascii_of_string str)); done.
Qed.

Lemma pretty_N_go_nonempty x s : s <> "" -> pretty_N_go x s <> "".
Proof.
  revert s. induction x as [x IH] using (well_founded_induction N.lt_wf_0). intros s Hs.
  destruct (decide (0 < x)%N) as [Hx|Hx].
  - rewrite pretty_N_go_step by done. apply IH; [|done].
    apply N.div_lt; [done|lia].
  - assert (x = 0%N) as -> by lia. by rewrite pretty_N_go_0.
Qed.

Lemma pretty_Z_nonempty (n : Z) : pretty n <> "".
Proof.
  destruct n as [|p|p]; [done| |done].
  change (pretty (Z.pos p)) with (pretty (N.pos p)).
  unfold pretty, pretty_N. case_decide; [done|].
  rewrite pretty_N_go_step by lia. by apply pretty_N_go_nonempty.
Qed.

(* ================================================================== *)
(** ** C2: idempotence of [stripWikilinks]                              *)
(* ================================================================== *)

(** C2 (counterexample): stripping is not idempotent in general.  The
    lazy link of ["[[[[a]]]]"] is ["[[a"], so one pass leaves ["[[a]]"],
    which a second pass turns into ["a"]. *)
Lemma stripWikilinks_not_idempotent :
  stripWikilinks (stripWikilinks "[[[[a]]]]") <> stripWikilinks "[[[[a]]]]".
Proof. vm_compute. discriminate. Qed.

(** C2 (amended): on every text in which no ['['] occurs between a
    ["[["] and the next [']'] (wikilinks are not nested), stripping twice
    equals stripping once. *)
Theorem stripWikilinks_idempotent_unnested (s : string) :
  links_unnested s = true -> stripWikilinks (stripWikilinks s) = stripWikilinks s.
Proof.
  unfold links_unnested, stripWikilinks. intros Hg.
  rewrite list_ascii_of_string_of_list_ascii.
  by rewrite (nomatch_strip_id _ (good_strip_nomatch _ Hg)).
Qed.

Lemma stripWikilinks_idempotent_unnested_witness :
  links_unnested "see [[Foo]] and [[Bar|baz]]" = true /\
  stripWikilinks (stripWikilinks "see [[Foo]] and [[Bar|baz]]")
  = stripWikilinks "see [[Foo]] and [[Bar|baz]]".
Proof.
  split; [vm_compute; reflexivity|].
  apply stripWikilinks_idempotent_unnested. vm_compute. reflexivity.
Defined.

(* ================================================================== *)
(** ** C10: group keys are never empty                                  *)
(* ================================================================== *)

(** C10: [valueToGroupString] never returns the empty string, for any
    [null], [undefined], string, number, boolean, array or object value. *)
Theorem valueToGroupString_nonempty (v : value) : valueToGroupString v <> "".
Proof.
  destruct v as [| |s|n|b|l|str]; cbn [valueToGroupString is_object_with_toString].
  - discriminate.
  - discriminate.
  - destruct (String.eqb (stripWikilinks s) "") eqn:E; [discriminate|].
    by apply String.eqb_neq.
  - apply pretty_Z_nonempty.
  - destruct b; discriminate.
  - destruct (String.eqb (js_String (VArr l)) "") eqn:E; [discriminate|].
    destruct (_ || _); [discriminate|].
    apply stripWikilinks_nonempty. by apply String.eqb_neq.
  - destruct (String.eqb (js_String (VObj str)) "") eqn:E; [discriminate|].
    destruct (_ || _); [discriminate|].
    apply stripWikilinks_nonempty. by apply String.eqb_neq.
Qed.

(* ================================================================== *)
(** ** C1: [groupEntriesByProperty] partitions its input                *)
(* ================================================================== *)

Lemma existsb_eqb_elem k (l : list string) : existsb (String.eqb k) l = true <-> k ∈ l.
Proof.
  rewrite existsb_exists, list_elem_of_In. split.
  - intros (x & Hx & Hk). apply String.eqb_eq in Hk. by subst.
  - intros Hk. exists k. split; [done|]. apply String.eqb_refl.
Qed.

Lemma first_seen_snoc l k :
  first_seen (l ++ [k])%list =
  (if existsb (String.eqb k) (first_seen l) then first_seen l else (first_seen l ++ [k])%list).
Proof. unfold first_seen. by rewrite fold_left_app. Qed.

Lemma first_seen_elem l k : k ∈ first_seen l <-> k ∈ l.
Proof.
  revert k. induction l as [|x l IH] using rev_ind; intros k; [done|].
  rewrite first_seen_snoc, elem_of_app, list_elem_of_singleton.
  destruct (existsb (String.eqb x) (first_seen l)) eqn:E.
  - apply existsb_eqb_elem in E. rewrite IH in E. rewrite IH. naive_solver.
  - rewrite elem_of_app, list_elem_of_singleton, IH. done.
Qed.

Lemma first_seen_NoDup l : NoDup (first_seen l).
Proof.
  induction l as [|x l IH] using rev_ind; [constructor|].
  rewrite first_seen_snoc.
  destruct (existsb (String.eqb x) (first_seen l)) eqn:E; [done|].
  apply NoDup_app. split; [done|]. split; [|apply NoDup_singleton].
  intros y Hy ->%list_elem_of_singleton. apply existsb_eqb_elem in Hy. congruence.
Qed.

Section Grouping.
Context {A : Type} (keyOf : A -> string).

Lemma map_has_map (ks : list string) (B : string -> list A) k :
  map_has (map (fun k' => (k', B k')) ks) k = existsb (String.eqb k) ks.
Proof.
  induction ks as [|k' ks IH]; [done|]. simpl. by rewrite IH, String.eqb_sym.
Qed.

Lemma map_get_push_map (ks : list string) (B : string -> list A) k x :
  NoDup ks ->
  map_get_push (map (fun k' => (k', B k')) ks) k x =
  map (fun k' => (k', if String.eqb k' k then (B k' ++ [x])%list else B k')) ks.
Proof.
  induction ks as [|k' ks IH]; intros Hnd; [done|].
  apply NoDup_cons in Hnd as [Hnot Hnd]. simpl.
  destruct (String.eqb k' k) eqn:E; [|by rewrite IH].
  apply String.eqb_eq in E. subst k'. f_equal.
  apply map_ext_in. intros k' Hk'%list_elem_of_In.
  destruct (String.eqb k' k) eqn:E; [|done].
  apply String.eqb_eq in E. subst. done.
Qed.

Lemma filter_key_nil (pre : list A) k :
  k ∉ map keyOf pre -> List.filter (fun e => String.eqb (keyOf e) k) pre = [].
Proof.
  induction pre as [|e pre IH]; [done|]. simpl. intros Hk.
  rewrite elem_of_cons in Hk.
  destruct (String.eqb (keyOf e) k) eqn:E.
  - apply String.eqb_eq in E. naive_solver.
  - apply IH. naive_solver.
Qed.

Lemma group_step_grouped pre e :
  group_step keyOf (grouped keyOf pre) e = grouped keyOf (pre ++ [e])%list.
Proof.
  unfold group_step, grouped.
  set (ks := first_seen (map keyOf pre)).
  set (B := fun k => List.filter (fun e0 => String.eqb (keyOf e0) k) pre).
  change (map (fun k0 => (k0, List.filter (fun e0 => String.eqb (keyOf e0) k0) pre)) ks)
    with (map (fun k' => (k', B k')) ks).
  set (k := keyOf e).
  rewrite map_has_map, map_app. cbn [map]. rewrite first_seen_snoc. fold ks.
  assert (Hgroups1 :
    (if existsb (String.eqb k) ks
     then map (fun k' => (k', B k')) ks
     else (map (fun k' => (k', B k')) ks ++ [(k, [])])%list)
    = map (fun k' => (k', B k'))
        (if existsb (String.eqb k) ks then ks else (ks ++ [k])%list)).
  { destruct (existsb _ _) eqn:E; [done|].
    rewrite map_app. simpl. do 3 f_equal. symmetry. apply filter_key_nil.
    rewrite <-first_seen_elem, <-existsb_eqb_elem. fold ks. congruence. }
  rewrite Hgroups1, map_get_push_map.
  2:{ pose proof (first_seen_snoc (map keyOf pre) k) as Hs. fold ks in Hs. rewrite <-Hs.
      apply first_seen_NoDup. }
  apply map_ext. intros k'. unfold B. rewrite List.filter_app. simpl.
  rewrite (String.eqb_sym k' k).
  unfold k. destruct (String.eqb (keyOf e) k'); [done|]. by rewrite app_nil_r.
Qed.

Lemma fold_group_step_grouped l pre :
  fold_left (group_step keyOf) l (grouped keyOf pre) = grouped keyOf (pre ++ l)%list.
Proof.
  revert pre. induction l as [|e l IH]; intros pre; simpl.
  - by rewrite app_nil_r.
  - rewrite group_step_grouped, IH. by rewrite <-app_assoc.
Qed.

Lemma map_get_push_perm (g : list (string * list A)) k x :
  map_has g k = true ->
  concat (map snd (map_get_push g k x)) ≡ₚ (concat (map snd g) ++ [x])%list.
Proof.
  induction g as [|[k' b] g IH]; [done|]. simpl.
  destruct (String.eqb k' k) eqn:E; simpl.
  - intros _. rewrite <-!app_assoc. apply Permutation_app_head, Permutation_app_comm.
  - intros H. rewrite <-app_assoc. apply Permutation_app_head, IH. done.
Qed.

Lemma group_step_perm g e :
  concat (map snd (group_step keyOf g e)) ≡ₚ (concat (map snd g) ++ [e])%list.
Proof.
  unfold group_step. destruct (map_has g (keyOf e)) eqn:E.
  - by apply map_get_push_perm.
  - rewrite map_get_push_perm.
    + rewrite map_app, concat_app. simpl. by rewrite app_nil_r.
    + unfold map_has. rewrite existsb_app. simpl. rewrite String.eqb_refl.
      by rewrite orb_true_r.
Qed.

Lemma fold_group_step_perm l g :
  concat (map snd (fold_left (group_step keyOf) l g)) ≡ₚ (concat (map snd g) ++ l)%list.
Proof.
  revert g. induction l as [|e l IH]; intros g; simpl.
  - by rewrite app_nil_r.
  - rewrite IH, group_step_perm. by rewrite <-app_assoc.
Qed.
End Grouping.

(** C1: the buckets of [groupEntriesByProperty E P] are, in order of first
    occurrence of their keys, the entries of [E] whose resolved key is the
    bucket's key, in input order; the keys are distinct and are exactly
    the resolved keys of [E]; the buckets together are a permutation of
    [E] (nothing dropped or duplicated). *)
Theorem groupEntriesByProperty_partition (E : list Entry) (P : string) :
  let key := fun e => getPropertyValueAsString e P in
  groupEntriesByProperty E P =
    map (fun k => (k, List.filter (fun e => String.eqb (key e) k) E))
        (first_seen (map key E)) /\
  NoDup (map fst (groupEntriesByProperty E P)) /\
  (forall k, k ∈ map fst (groupEntriesByProperty E P) <-> exists e, e ∈ E /\ key e = k) /\
  concat (map snd (groupEntriesByProperty E P)) ≡ₚ E.
Proof.
  intros key.
  assert (Hg : groupEntriesByProperty E P = grouped key E).
  { unfold groupEntriesByProperty.
    change (@nil (string * list Entry)) with (grouped key []).
    by rewrite fold_group_step_grouped. }
  assert (Hk : map fst (groupEntriesByProperty E P) = first_seen (map key E)).
  { rewrite Hg. unfold grouped. rewrite map_map. simpl. apply map_id. }
  split; [exact Hg|]. split; [rewrite Hk; apply first_seen_NoDup|]. split.
  - intros k. rewrite Hk, first_seen_elem, list_elem_of_In, in_map_iff.
    split; intros (e & H1 & H2); exists e; rewrite ?list_elem_of_In in *; done.
  - unfold groupEntriesByProperty. rewrite fold_group_step_perm. done.
Qed.

(* ================================================================== *)
(** ** C3 and C8: the fallback chain of the two resolvers               *)
(* ================================================================== *)

(** C3 (code_bug): for grouping, a value whose stringification is
    ["null"] ends resolution with the sentinel ["None"] (it never reaches
    the frontmatter), while the subtitle resolver falls through to the
    frontmatter value ["done"]. *)
Theorem null_value_fallback_diverges :
  getPropertyValueAsString entry_null_status "note.status" = "None" /\
  getSubtitleText entry_null_status "note.status" = Some "done".
Proof. split; vm_compute; reflexivity. Qed.

(** C8 (code_bug): for [file.folder], a value printing as [""] gives the
    group key ["None"] instead of the parent folder, while the subtitle
    resolver returns the parent folder ["Projects"]. *)
Theorem empty_folder_value_group_key :
  getPropertyValueAsString entry_empty_folder "file.folder" = "None" /\
  getSubtitleText entry_empty_folder "file.folder" = Some "Projects".
Proof. split; vm_compute; reflexivity. Qed.

(** When the accessor gives nothing at all (it throws or returns a falsy
    value), the two resolvers diverge as the specification says: the
    parent folder or ["Root"] for grouping, the parent folder or [null]
    for the subtitle. *)
Lemma file_folder_no_value (e : Entry) :
  (getValue e "file.folder" = Throws \/
   exists v, getValue e "file.folder" = Returns v /\ truthy v = false) ->
  getPropertyValueAsString e "file.folder" = default "Root" (parent_or e None) /\
  getSubtitleText e "file.folder" = parent_or e None.
Proof.
  intros Hv. split.
  - unfold getPropertyValueAsString.
    destruct Hv as [->|(v & -> & Hf)]; [|rewrite Hf]; simpl;
      unfold parent_or; destruct (parent_name e) as [n|]; simpl; try done;
      by destruct (String.eqb n "").
  - done.
Qed.

(* ================================================================== *)
(** ** C4: composite collapse keys                                      *)
(* ================================================================== *)

(** C4: with a native key present (a non-empty [nativeKey], the string
    the view passes for a native group with a key) the keys are
    [nativeKey::level1] and [nativeKey::level1::level2]; with no native
    key ([nativeKey = ""]) they are [level1] and [level1:level2]. *)
Theorem collapse_key_format (nativeKey level1Key level2Key : string) :
  (nativeKey <> "" ->
   collapseKey nativeKey level1Key = nativeKey +:+ "::" +:+ level1Key /\
   compoundKey nativeKey level1Key level2Key
     = nativeKey +:+ "::" +:+ level1Key +:+ "::" +:+ level2Key) /\
  (nativeKey = "" ->
   collapseKey nativeKey level1Key = level1Key /\
   compoundKey nativeKey level1Key level2Key = level1Key +:+ ":" +:+ level2Key).
Proof.
  unfold collapseKey, compoundKey. split.
  - intros Hn. apply String.eqb_neq in Hn. by rewrite Hn.
  - intros ->. done.
Qed.

Lemma collapse_key_format_witness :
  collapseKey "Work" "done" = "Work::done" /\
  compoundKey "Work" "done" "high" = "Work::done::high" /\
  collapseKey "" "done" = "done" /\ compoundKey "" "done" "high" = "done:high".
Proof.
  destruct (collapse_key_format "Work" "done" "high") as [H1 _].
  destruct (collapse_key_format "" "done" "high") as [_ H2].
  destruct (H1 ltac:(discriminate)) as [-> ->].
  destruct (H2 eq_refl) as [-> ->].
  repeat split.
Defined.

(* ================================================================== *)
(** ** C5: toggling a group header                                      *)
(* ================================================================== *)

Lemma set_for_update lvl f st : set_for lvl (update_set lvl f st) = f (set_for lvl st).
Proof. by destruct lvl. Qed.

Lemma update_set_id lvl f st :
  f (set_for lvl st) = set_for lvl st -> update_set lvl f st = st.
Proof. destruct st, lvl; simpl; intros ->; done. Qed.

Lemma update_set_twice lvl f g st :
  update_set lvl g (update_set lvl f st) = update_set lvl (fun s => g (f s)) st.
Proof. by destruct st, lvl. Qed.

(** The membership flip the plugin-group headers perform. *)
Lemma toggle_twice (k : string) (s : gset string) :
  (if bool_decide (k ∈ (if bool_decide (k ∈ s) then s ∖ {[k]} else s ∪ {[k]}))
   then (if bool_decide (k ∈ s) then s ∖ {[k]} else s ∪ {[k]}) ∖ {[k]}
   else (if bool_decide (k ∈ s) then s ∖ {[k]} else s ∪ {[k]}) ∪ {[k]}) = s.
Proof.
  destruct (bool_decide (k ∈ s)) eqn:E.
  - apply bool_decide_eq_true in E.
    rewrite bool_decide_eq_false_2 by set_solver.
    apply set_eq. intros x. destruct (decide (x = k)); set_solver.
  - apply bool_decide_eq_false in E.
    rewrite bool_decide_eq_true_2 by set_solver.
    apply set_eq. intros x. destruct (decide (x = k)); set_solver.
Qed.

(** For a plugin group, two clicks on its header (with the re-render in
    between) give back the collapse state. *)
Lemma click_custom_group_twice nativeKey groupKey levelOffset st :
  click_custom_group nativeKey groupKey levelOffset
    (click_custom_group nativeKey groupKey levelOffset st) = st.
Proof.
  unfold click_custom_group, header_click.
  set (ck := collapseKey nativeKey groupKey).
  set (lvl := level_at levelOffset).
  assert (Hk : (if String.eqb ck "" then groupKey else ck) = ck).
  { destruct (String.eqb ck "") eqn:E; [|done]. apply String.eqb_eq in E. rewrite E.
    unfold ck, collapseKey in E. destruct (String.eqb nativeKey "") eqn:En; [done|].
    destruct nativeKey; [discriminate En|discriminate E]. }
  rewrite !Hk, set_for_update, update_set_twice.
  apply update_set_id. apply toggle_twice.
Qed.

(** C5 (code_bug): a native group whose key prints as ["[[Foo]]"] is
    read under ["[[Foo]]"] but its header toggles ["Foo"]: from the empty
    state, two clicks leave ["Foo"] in [collapsedGroups] instead of
    restoring its absence (each click adds it again). *)
Theorem native_header_toggle_twice_not_restored :
  ("Foo" ∉ collapsedGroups empty_collapse_state) /\
  ("Foo" ∈ collapsedGroups (click_native_group (Some "[[Foo]]") empty_collapse_state)) /\
  ("Foo" ∈ collapsedGroups (click_native_group (Some "[[Foo]]")
                              (click_native_group (Some "[[Foo]]") empty_collapse_state))).
Proof.
  assert (Hs : stripWikilinks "[[Foo]]" = "Foo") by reflexivity.
  assert (Hne : "[[Foo]]" <> "Foo") by discriminate.
  unfold click_native_group, header_click, nativeKeyOf. cbn [collapsedGroups set_for update_set].
  rewrite Hs. unfold empty_collapse_state. cbn [collapsedGroups].
  rewrite (bool_decide_eq_false_2 ("[[Foo]]" ∈ (∅ : gset string))) by set_solver.
  cbn [update_set collapsedGroups].
  rewrite (bool_decide_eq_false_2 ("[[Foo]]" ∈ (∅ ∪ {["Foo"]} : gset string))) by set_solver.
  cbn [update_set collapsedGroups].
  set_solver.
Qed.

(* ================================================================== *)
(** ** C6: [formatRelativeDate] test vectors                            *)
(* ================================================================== *)

(** C6 (counterexample): 25 hours before now the day count is 1, which
    the code prints as ["Yesterday"], not ["1d ago"]. *)
Lemma formatRelativeDate_25h_not_1d :
  formatRelativeDate (1700000000000 - 25 * 3600000) 1700000000000 <> "1d ago".
Proof. vm_compute. discriminate. Qed.

(** C6 (amended): at every [now]: [now] gives ["Just now"], 90 s before
    gives ["1m ago"], 25 h and exactly 24 h before give ["Yesterday"],
    400 days before gives ["1y ago"]; and every timestamp whose age is at
    least 24 h and under 48 h (floored day count 1) gives ["Yesterday"]. *)
Theorem formatRelativeDate_vectors (now : Z) :
  formatRelativeDate now now = "Just now" /\
  formatRelativeDate (now - 90 * 1000) now = "1m ago" /\
  formatRelativeDate (now - 25 * 3600 * 1000) now = "Yesterday" /\
  formatRelativeDate (now - 24 * 3600 * 1000) now = "Yesterday" /\
  formatRelativeDate (now - 400 * 86400 * 1000) now = "1y ago" /\
  (forall timestamp : Z,
     (86400000 <= now - timestamp < 2 * 86400000)%Z ->
     formatRelativeDate timestamp now = "Yesterday").
Proof.
  split; [|split; [|split; [|split; [|split]]]].
  1-5: unfold formatRelativeDate.
  - replace (now - now)%Z with 0%Z by lia. vm_compute. reflexivity.
  - replace (now - (now - 90 * 1000))%Z with 90000%Z by lia. vm_compute. reflexivity.
  - replace (now - (now - 25 * 3600 * 1000))%Z with 90000000%Z by lia. vm_compute. reflexivity.
  - replace (now - (now - 24 * 3600 * 1000))%Z with 86400000%Z by lia. vm_compute. reflexivity.
  - replace (now - (now - 400 * 86400 * 1000))%Z with 34560000000%Z by lia.
    vm_compute. reflexivity.
  - intros timestamp Hr.
    assert (Hd : ((now - timestamp) / 1000 / 60 / 60 / 24 = 1)%Z).
    { rewrite !Z.div_div by lia. apply Z.le_antisymm.
      - apply Z.lt_succ_r. apply Z.div_lt_upper_bound; lia.
      - apply Z.div_le_lower_bound; lia. }
    unfold formatRelativeDate. rewrite Hd. reflexivity.
Qed.


(* ================================================================== *)
(** ** C7: [truncateToLines]                                            *)
(* ================================================================== *)

Lemma strip_tags_go_pending s p :
  strip_tags_go (Some p) s =
  match after_gt s with
  | Some r => strip_tags_go None r
  | None => (rev p ++ s)%list
  end.
Proof.
  revert p. induction s as [|c t IH]; intros p; simpl.
  - by rewrite app_nil_r.
  - destruct (is_gt c); [done|]. rewrite IH.
    destruct (after_gt t); [done|]. simpl. by rewrite <-app_assoc.
Qed.

Lemma after_gt_length s r : after_gt s = Some r -> length r < length s.
Proof.
  induction s as [|c t IH]; simpl; [done|].
  destruct (is_gt c); [intros [= ->]; lia|]. intros H. specialize (IH H). lia.
Qed.

Lemma after_gt_None s : after_gt s = None -> existsb is_gt s = false.
Proof.
  induction s as [|c t IH]; simpl; [done|]. destruct (is_gt c); [done|]. auto.
Qed.

Lemma no_tag_no_gt s : existsb is_gt s = false -> no_tag s = true.
Proof.
  induction s as [|c t IH]; simpl; [done|]. intros [Hc Ht]%orb_false_elim.
  rewrite Ht, IH by done. by destruct (is_lt c).
Qed.

(** After the tag removal no tag is left. *)
Lemma no_tag_strip_tags s : no_tag (strip_tags s) = true.
Proof.
  unfold strip_tags.
  induction s as [s IH] using (induction_ltof1 _ (@length ascii)). unfold ltof in IH.
  destruct s as [|c t]; [done|]. simpl.
  destruct (is_lt c) eqn:Hc.
  - rewrite strip_tags_go_pending. destruct (after_gt t) as [r|] eqn:Ha.
    + apply IH. apply after_gt_length in Ha. simpl. lia.
    + apply after_gt_None in Ha. simpl. rewrite Hc, Ha. simpl. by apply no_tag_no_gt.
  - cbn [no_tag]. rewrite Hc. simpl. apply IH. simpl. lia.
Qed.

Lemma no_tag_app_r x y : no_tag (x ++ y)%list = true -> no_tag y = true.
Proof.
  induction x as [|c x IH]; simpl; [done|]. intros [_ H]%andb_prop. auto.
Qed.

Lemma no_tag_app_l x y : no_tag (x ++ y)%list = true -> no_tag x = true.
Proof.
  induction x as [|c x IH]; simpl; [done|]. intros [Hc H]%andb_prop.
  rewrite IH by done. rewrite andb_true_r.
  destruct (is_lt c); [|done]. rewrite existsb_app in Hc.
  apply negb_true_iff, orb_false_elim in Hc as [-> _]. done.
Qed.

Lemma drop_ws_suffix l : exists x, l = (x ++ drop_ws l)%list.
Proof.
  induction l as [|c t IH]; simpl; [by exists []|].
  destruct (is_ws c); [|by exists []].
  destruct IH as [x Hx]. exists (c :: x). simpl. by f_equal.
Qed.

(** [trim] keeps a contiguous piece of its input. *)
Lemma trim_list_infix l : exists a b, l = (a ++ trim_list l ++ b)%list.
Proof.
  unfold trim_list.
  destruct (drop_ws_suffix l) as [a Ha].
  destruct (drop_ws_suffix (rev (drop_ws l))) as [b Hb].
  exists a, (rev b).
  rewrite Ha at 1. f_equal.
  rewrite <-(rev_involutive (drop_ws l)) at 1. rewrite Hb at 1.
  by rewrite rev_app_distr.
Qed.

Lemma no_tag_trim l : no_tag l = true -> no_tag (trim_list l) = true.
Proof.
  destruct (trim_list_infix l) as (a & b & Hl). rewrite Hl at 1. intros H.
  apply no_tag_app_r in H. by apply no_tag_app_l in H.
Qed.

Lemma length_trim_list l : length (trim_list l) <= length l.
Proof.
  destruct (trim_list_infix l) as (a & b & Hl).
  rewrite Hl at 2. rewrite !length_app. lia.
Qed.

Lemma existsb_rev_eq {B} (f : B -> bool) l : existsb f (rev l) = existsb f l.
Proof.
  induction l as [|x l IH]; simpl; [done|].
  rewrite existsb_app, IH. simpl. by rewrite orb_false_r, orb_comm.
Qed.

(** The pieces [split(/\r?\n/)] returns contain no line feed. *)
Lemma split_go_no_nl s cur :
  existsb is_nl cur = false -> Forall (fun l => existsb is_nl l = false) (split_go cur s).
Proof.
  revert cur.
  induction s as [s IH] using (induction_ltof1 _ (@length ascii)). unfold ltof in IH.
  intros cur Hcur.
  assert (Hrev : existsb is_nl (rev cur) = false).
  { by rewrite existsb_rev_eq. }
  destruct s as [|c t]; simpl.
  - by constructor.
  - destruct (is_nl c) eqn:Hnl.
    + constructor; [done|]. apply IH; [simpl; lia|done].
    + assert (Hc : existsb is_nl (c :: cur) = false) by (simpl; by rewrite Hnl).
      destruct (is_cr c).
      * destruct t as [|d t'].
        -- apply IH; [simpl; lia|done].
        -- destruct (is_nl d).
           ++ constructor; [done|]. apply IH; [simpl; lia|done].
           ++ apply IH; [simpl; lia|done].
      * apply IH; [simpl; lia|done].
Qed.

Lemma Forall_firstn {B} (P : B -> Prop) n (l : list B) : Forall P l -> Forall P (firstn n l).
Proof.
  intros H. rewrite <-(firstn_skipn n l) in H. by apply Forall_app in H as [? _].
Qed.

(** C7: [truncateToLines s n] removes the angle-bracket tags (none is
    left in the trimmed text), splits it into lines, keeps at most [n]
    of the non-blank ones (the first ones; none contains a line feed) and
    joins them with single spaces; a joined text of at most [n*80]
    characters is returned as it is, a longer one is cut to [n*80]
    characters, trimmed, and followed by ["..."]. *)
Theorem truncateToLines_spec (s : string) (n : nat) :
  let stripped := trim_list (strip_tags (list_ascii_of_string s)) in
  let kept := firstn n (List.filter nonblank (split_lines stripped)) in
  let joined := join_l [" "%char] kept in
  let out := list_ascii_of_string (truncateToLines s n) in
  no_tag stripped = true /\
  length kept <= n /\
  Forall (fun l => nonblank l = true /\ existsb is_nl l = false) kept /\
  ((length joined <= n * 80 /\ out = joined) \/
   (n * 80 < length joined /\
    exists p a b, out = (p ++ ellipsis)%list /\
                  firstn (n * 80) joined = (a ++ p ++ b)%list /\ length p <= n * 80)).
Proof.
  intros stripped kept joined out.
  split; [apply no_tag_trim, no_tag_strip_tags|].
  split; [apply firstn_le_length|].
  split.
  - apply Forall_firstn. apply Forall_forall. intros l Hl.
    apply list_elem_of_In, filter_In in Hl as [Hin Hnb]. split; [done|].
    pose proof (split_go_no_nl stripped [] eq_refl) as Hall.
    rewrite Forall_forall in Hall. apply Hall. by apply list_elem_of_In.
  - unfold out, truncateToLines. fold stripped. fold kept. fold joined.
    rewrite list_ascii_of_string_of_list_ascii.
    destruct (Nat.ltb (n * 80) (length joined)) eqn:Hlt.
    + apply Nat.ltb_lt in Hlt. right. split; [done|].
      destruct (trim_list_infix (firstn (n * 80) joined)) as (a & b & Hab).
      exists (trim_list (firstn (n * 80) joined)), a, b.
      split; [done|]. split; [done|].
      etrans; [apply length_trim_list|]. apply firstn_le_length.
    + apply Nat.ltb_ge in Hlt. left. done.
Qed.

(* ================================================================== *)
(** ** C9: [getTags]                                                    *)
(* ================================================================== *)

Lemma includes_spec l tag : includes l tag = true <-> VStr tag ∈ l.
Proof.
  induction l as [|v l IH]; simpl.
  - split; [done|]. intros Hv. by apply elem_of_nil in Hv.
  - rewrite orb_true_iff, IH, elem_of_cons.
    destruct v; try (split; [intros [?|?]; [done|by right]|intros [?|?]; [done|by right]]).
    rewrite String.eqb_eq. split; intros [H|H]; (by right) || (left; congruence).
Qed.

Lemma includes_app l1 l2 tag :
  includes (l1 ++ l2)%list tag = includes l1 tag || includes l2 tag.
Proof. unfold includes. by rewrite existsb_app. Qed.

Lemma includes_map_VStr l tag : includes (map VStr l) tag = existsb (String.eqb tag) l.
Proof.
  induction l as [|s l IH]; simpl; [done|]. by rewrite IH, String.eqb_sym.
Qed.

Lemma existsb_eqb_filter (P : string -> bool) l tag :
  existsb (String.eqb tag) (List.filter P l) = existsb (String.eqb tag) l && P tag.
Proof.
  induction l as [|x l IH]; simpl; [done|].
  destruct (String.eqb tag x) eqn:E.
  - apply String.eqb_eq in E as <-. destruct (P tag) eqn:Hp; simpl.
    + by rewrite String.eqb_refl.
    + by rewrite IH, andb_false_r.
  - destruct (P x); simpl; [rewrite E|]; done.
Qed.

Lemma NoDup_List_filter {B} (f : B -> bool) l : NoDup l -> NoDup (List.filter f l).
Proof.
  induction l as [|x l IH]; simpl; [done|]. intros [Hx Hl]%NoDup_cons.
  destruct (f x); [|auto]. constructor; [|auto].
  intros Hin. apply Hx. apply list_elem_of_In in Hin. apply filter_In in Hin as [Hin _].
  by apply list_elem_of_In.
Qed.

#[local] Instance VStr_inj : Inj (=) (=) VStr.
Proof. intros ?? [=]. done. Qed.

(** The inline tags added by [getTags]: their texts without ["#"], in
    the order of first occurrence, less those the frontmatter list
    already holds. *)
Lemma getTags_eq e :
  getTags e =
  (frontmatter_tags e ++
   map VStr (List.filter (fun t => negb (includes (frontmatter_tags e) t))
                         (first_seen (map strip_hash (inline_tags e)))))%list.
Proof.
  unfold getTags. generalize (frontmatter_tags e) as fm. intros fm.
  induction (inline_tags e) as [|t ts IH] using rev_ind; simpl; [by rewrite app_nil_r|].
  rewrite fold_left_app, IH, map_app.
  change (map strip_hash [t]) with [strip_hash t]. rewrite first_seen_snoc.
  cbn [fold_left].
  unfold add_inline_tag at 1.
  set (P := fun t0 => negb (includes fm t0)).
  set (fs := first_seen (map strip_hash ts)).
  rewrite includes_app, includes_map_VStr, existsb_eqb_filter.
  destruct (includes fm (strip_hash t)) eqn:Hfm; simpl.
  - destruct (existsb (String.eqb (strip_hash t)) fs); [done|].
    rewrite List.filter_app. simpl.
    assert (HP : P (strip_hash t) = false) by (unfold P; by rewrite Hfm).
    rewrite HP. by rewrite app_nil_r.
  - unfold P at 1. rewrite Hfm. rewrite andb_true_r.
    destruct (existsb (String.eqb (strip_hash t)) fs); [done|].
    rewrite List.filter_app. simpl.
    assert (HP : P (strip_hash t) = true) by (unfold P; by rewrite Hfm).
    rewrite HP. by rewrite map_app, app_assoc.
Qed.

(** The end-to-end scenario: frontmatter [["a","b"]] and inline [#b]. *)
Lemma getTags_tags_ab : getTags entry_tags_ab = [VStr "a"; VStr "b"].
Proof. reflexivity. Qed.

(** C9 (counterexample): a frontmatter tag array that repeats a tag is
    copied as it is, so the resolved list [["a","a"]] holds a duplicate. *)
Theorem getTags_dup_frontmatter : ~ NoDup (getTags entry_dup_fm_tags).
Proof.
  assert (H : getTags entry_dup_fm_tags = [VStr "a"; VStr "a"]) by reflexivity.
  rewrite H. intros [Hn _]%NoDup_cons. apply Hn. by apply elem_of_cons; left.
Qed.

(** C9 (amended): the resolved tag list is the frontmatter tag list (an
    array copied as it is, a string as one tag) followed by the inline
    tags without their leading ["#"], each once, in order of first
    occurrence, less those already in the frontmatter list; every inline
    tag is thus in the result, and the result has no duplicate whenever
    the frontmatter list has none. *)
Theorem getTags_ordered_union (e : Entry) :
  let fm := frontmatter_tags e in
  let extra := List.filter (fun t => negb (includes fm t))
                           (first_seen (map strip_hash (inline_tags e))) in
  getTags e = (fm ++ map VStr extra)%list /\
  (forall t, t ∈ inline_tags e -> VStr (strip_hash t) ∈ getTags e) /\
  (NoDup fm -> NoDup (getTags e)).
Proof.
  intros fm extra.
  assert (Heq : getTags e = (fm ++ map VStr extra)%list) by apply getTags_eq.
  split; [done|]. split.
  - intros t Ht. rewrite Heq, elem_of_app.
    destruct (includes fm (strip_hash t)) eqn:Hi.
    + left. by apply includes_spec.
    + right. apply list_elem_of_In, in_map, filter_In. split.
      * apply list_elem_of_In, first_seen_elem. apply list_elem_of_In, in_map.
        by apply list_elem_of_In.
      * by rewrite Hi.
  - intros Hfm. rewrite Heq. apply NoDup_app. split; [done|]. split.
    + intros x Hx Hy. apply list_elem_of_In, in_map_iff in Hy as (t & <- & Ht).
      apply filter_In in Ht as [_ Hn]. apply negb_true_iff in Hn.
      apply includes_spec in Hx. congruence.
    + change (NoDup (VStr <$> extra)). apply NoDup_fmap_2; [apply _|].
      apply NoDup_List_filter, first_seen_NoDup.
Qed.

Lemma getTags_ordered_union_witness :
  NoDup (frontmatter_tags entry_tags_ab) /\ NoDup (getTags entry_tags_ab).
Proof.
  assert (Hn : NoDup (frontmatter_tags entry_tags_ab)).
  { change (NoDup [VStr "a"; VStr "b"]).
    constructor.
    - intros H. apply elem_of_cons in H as [H|H]; [discriminate|by apply elem_of_nil in H].
    - constructor; [intros H; by apply elem_of_nil in H|constructor]. }
  split; [exact Hn|].
  exact (proj2 (proj2 (getTags_ordered_union entry_tags_ab)) Hn).
Defined.

(* ================================================================== *)
(** ** [renderTextWithLinks]                                            *)
(* ================================================================== *)

Definition groups_rep (m : list ascii * option (list ascii) * list ascii) : list ascii * list ascii :=
  let '(l, a, r) := m in (match a with Some x => x | None => l end, r).

Lemma link_loop_groups_rep link rest :
  link_loop link rest = option_map groups_rep (link_loop_groups link rest).
Proof.
  revert link. induction rest as [|c t IH]; intros link; [done|].
  cbn [link_loop link_loop_groups].
  destruct (is_pipe c).
  - destruct (span_nonrbr t) as [[|x al] r]; cbv beta iota.
    + destruct (close_rr (c :: t)); [done|]. destruct (is_rbr c); [done|]. apply IH.
    + destruct (close_rr r); [done|].
      destruct (close_rr (c :: t)); [done|]. destruct (is_rbr c); [done|]. apply IH.
  - destruct (close_rr (c :: t)); [done|]. destruct (is_rbr c); [done|]. apply IH.
Qed.

Lemma match_at_groups s : match_at s = option_map groups_rep (match_groups s).
Proof.
  destruct s as [|a [|b [|c t]]]; try done. cbn [match_at match_groups].
  destruct (is_lbr a && is_lbr b && negb (is_rbr c)); [apply link_loop_groups_rep|done].
Qed.

Lemma flush_text p : concat (map seg_text (flush p)) = p.
Proof. destruct p; cbn; [done|]. by rewrite app_nil_r. Qed.

Lemma rtl_fuel_text f pending s :
  concat (map seg_text (rtl_fuel f pending s)) = (pending ++ strip_fuel f s)%list.
Proof.
  revert pending s. induction f as [|f IH]; intros pending s.
  - apply flush_text.
  - destruct s as [|c t]; cbn [rtl_fuel strip_fuel].
    + rewrite flush_text. by rewrite app_nil_r.
    + rewrite match_at_groups.
      destruct (match_groups (c :: t)) as [[[l a] r]|]; cbn [option_map groups_rep].
      * rewrite map_app, concat_app, flush_text. cbn [map concat seg_text].
        rewrite IH. simpl. done.
      * rewrite IH. by rewrite <-app_assoc.
Qed.

Lemma link_loop_groups_shape link rest l a r :
  link_loop_groups link rest = Some (l, a, r) ->
  link <> [] -> Forall (fun c => is_rbr c = false) link ->
  l <> [] /\ Forall (fun c => is_rbr c = false) l /\
  match a with
  | Some al => al <> [] /\ Forall (fun c => is_rbr c = false) al
  | None => True
  end.
Proof.
  revert link. induction rest as [|c t IH]; intros link; [done|].
  cbn [link_loop_groups]. intros H Hne Hf.
  destruct (is_pipe c).
  - destruct (span_nonrbr t) as [al r0] eqn:Hsp. destruct al as [|x al'].
    + destruct (close_rr (c :: t)); [injection H as <- <- <-; done|].
      destruct (is_rbr c) eqn:Hc; [done|].
      apply (IH (link ++ [c])%list); [done| |].
      * by destruct link.
      * apply Forall_app. split; [done|]. by constructor.
    + destruct (close_rr r0).
      * injection H as <- <- <-. split; [done|]. split; [done|]. split; [done|].
        apply Forall_forall. intros y Hy. apply (span_nonrbr_fst t).
        by rewrite Hsp.
      * destruct (close_rr (c :: t)); [injection H as <- <- <-; done|].
        destruct (is_rbr c) eqn:Hc; [done|].
        apply (IH (link ++ [c])%list); [done| |].
        -- by destruct link.
        -- apply Forall_app. split; [done|]. by constructor.
  - destruct (close_rr (c :: t)); [injection H as <- <- <-; done|].
    destruct (is_rbr c) eqn:Hc; [done|].
    apply (IH (link ++ [c])%list); [done| |].
    + by destruct link.
    + apply Forall_app. split; [done|]. by constructor.
Qed.

Definition segment_ok (sg : segment) : Prop :=
  match sg with
  | SText t => t <> []
  | SLink p d => p <> [] /\ d <> [] /\
                 Forall (fun c => is_rbr c = false) p /\ Forall (fun c => is_rbr c = false) d
  end.

Lemma flush_ok p : Forall segment_ok (flush p).
Proof. destruct p; constructor; [done|constructor]. Qed.

Lemma rtl_fuel_ok f pending s : Forall segment_ok (rtl_fuel f pending s).
Proof.
  revert pending s. induction f as [|f IH]; intros pending s; [apply flush_ok|].
  destruct s as [|c t]; cbn [rtl_fuel]; [apply flush_ok|].
  destruct (match_groups (c :: t)) as [[[l a] r]|] eqn:Hm; [|apply IH].
  apply Forall_app. split; [apply flush_ok|]. constructor; [|apply IH].
  destruct t as [|d [|e t']]; try done. cbn [match_groups] in Hm.
  destruct (is_lbr c && is_lbr d && negb (is_rbr e)) eqn:He; [|done].
  apply andb_prop in He as [_ He]. apply negb_true_iff in He.
  apply link_loop_groups_shape in Hm as (Hl & Hlf & Ha); [|done|by constructor].
  cbn [segment_ok]. destruct a as [al|]; naive_solver.
Qed.

(** X1: the text [renderTextWithLinks] displays (its text nodes and
    link labels, in order) is [stripWikilinks] of its input. *)
Theorem renderTextWithLinks_visible (text : string) :
  visible_text (renderTextWithLinks text) = stripWikilinks text.
Proof.
  unfold visible_text, renderTextWithLinks, stripWikilinks, strip_list.
  by rewrite rtl_fuel_text.
Qed.

(** X2: [renderTextWithLinks] never appends an empty text node, and every
    link span it creates has a non-empty target and a non-empty label,
    neither containing [']']. *)
Theorem renderTextWithLinks_segments (text : string) :
  Forall segment_ok (renderTextWithLinks text).
Proof. apply rtl_fuel_ok. Qed.

(* ================================================================== *)
(** ** [onDataUpdated]: the rendered entries and headers                *)
(* ================================================================== *)

Lemma rendered_entries_app a b :
  rendered_entries (a ++ b)%list = (rendered_entries a ++ rendered_entries b)%list.
Proof. unfold rendered_entries. apply omap_app. Qed.

Lemma rendered_entries_header lvl t c b k l :
  rendered_entries (NHeader lvl t c b k :: l) = rendered_entries l.
Proof. reflexivity. Qed.

Lemma rendered_entries_nil : rendered_entries [] = [].
Proof. reflexivity. Qed.

Lemma rendered_entries_map es : rendered_entries (map NEntry es) = es.
Proof. induction es as [|e es IH]; simpl; [done|]. unfold rendered_entries in *. simpl. by rewrite IH. Qed.

Lemma groupEntriesByProperty_perm es p : concat (map snd (groupEntriesByProperty es p)) ≡ₚ es.
Proof. unfold groupEntriesByProperty. by rewrite fold_group_step_perm. Qed.

Lemma set_for_empty lvl : set_for lvl empty_collapse_state = ∅.
Proof. by destruct lvl. Qed.

(** Sequencing and loops of render calls. *)

Lemma out_seq_hdr n b : out (r_seq (r_ret [n]) b) = n :: out b.
Proof. reflexivity. Qed.

Lemma threw_seq_hdr n b : threw (r_seq (r_ret [n]) b) = threw b.
Proof. reflexivity. Qed.

Lemma Forall_out_seq (P : node -> Prop) a b :
  Forall P (out a) -> Forall P (out b) -> Forall P (out (r_seq a b)).
Proof. unfold r_seq. destruct (threw a); simpl; [done|]. intros. by apply Forall_app. Qed.

Lemma Forall_out_for {X} (P : node -> Prop) (f : X -> rendered) xs :
  (forall x, Forall P (out (f x))) -> Forall P (out (r_for f xs)).
Proof. intros H. induction xs; simpl; [constructor|]. by apply Forall_out_seq. Qed.

Lemma rendered_entries_seq a b :
  rendered_entries (out (r_seq a b)) ⊆+ (rendered_entries (out a) ++ rendered_entries (out b))%list.
Proof.
  unfold r_seq. destruct (threw a); simpl.
  - by apply submseteq_inserts_r.
  - by rewrite rendered_entries_app.
Qed.

Lemma rendered_entries_for {X} (f : X -> rendered) (g : X -> list Entry) xs :
  (forall x, rendered_entries (out (f x)) ⊆+ g x) ->
  rendered_entries (out (r_for f xs)) ⊆+ concat (map g xs).
Proof.
  intros H. induction xs as [|x xs IH]; simpl; [done|].
  etrans; [apply rendered_entries_seq|]. by apply submseteq_app.
Qed.

Lemma r_for_ok {X} (f : X -> rendered) xs :
  Forall (fun x => threw (f x) = false) xs ->
  r_for f xs = r_ret (concat (map (fun x => out (f x)) xs)).
Proof.
  induction 1 as [|x xs Hx _ IH]; simpl; [done|].
  rewrite IH. unfold r_seq, r_ret. rewrite Hx. done.
Qed.

Lemma concat_map_singleton {X} (l : list X) : concat (map (fun x => [x]) l) = l.
Proof. induction l as [|x l IH]; simpl; [done|]. by rewrite IH. Qed.

Lemma Forall_buckets (P : Entry -> Prop) es p :
  Forall P es -> Forall (fun g => Forall P (snd g)) (groupEntriesByProperty es p).
Proof.
  intros H. rewrite <-(groupEntriesByProperty_perm es p) in H.
  revert H. generalize (groupEntriesByProperty es p) as gs.
  induction gs as [|g gs IH]; simpl; intros H; constructor;
    apply Forall_app in H; [tauto|]. apply IH. tauto.
Qed.

(** Entries whose [renderEntry] returns normally. *)

Lemma for_renderEntry_entries ok es : rendered_entries (out (r_for (renderEntry ok) es)) ⊆+ es.
Proof.
  etrans; [apply (rendered_entries_for _ (fun e => [e]))|].
  - intros e. reflexivity.
  - by rewrite concat_map_singleton.
Qed.

Lemma for_renderEntry_ok ok es :
  Forall (fun e => ok e = true) es -> r_for (renderEntry ok) es = r_ret (map NEntry es).
Proof.
  intros H. rewrite r_for_ok.
  - f_equal. clear H. induction es as [|e es IH]; [done|]. cbn [map concat]. rewrite IH. reflexivity.
  - eapply Forall_impl; [exact H|]. intros e He. cbn. by rewrite He.
Qed.

(** The rendered entries: never more than the input. *)

Ltac entries_hdr :=
  etrans; [apply rendered_entries_seq|]; cbn [out r_ret];
  rewrite rendered_entries_header, rendered_entries_nil, app_nil_l.

Lemma renderCustomGroup_entries ok st nk gk es off :
  rendered_entries (out (renderCustomGroup ok st nk gk es off)) ⊆+ es.
Proof.
  unfold renderCustomGroup. entries_hdr.
  destruct (bool_decide _); [apply submseteq_nil_l|apply for_renderEntry_entries].
Qed.

Lemma render_sub_group_entries ok st nk gk lvl sg :
  rendered_entries (out (render_sub_group ok st nk gk lvl sg)) ⊆+ snd sg.
Proof.
  destruct sg as [k es]. unfold render_sub_group. cbn [snd]. entries_hdr.
  destruct (bool_decide _); [apply submseteq_nil_l|apply for_renderEntry_entries].
Qed.

Lemma renderGroupWithSubGroups_entries ok st nk gk es sp off :
  rendered_entries (out (renderGroupWithSubGroups ok st nk gk es sp off)) ⊆+ es.
Proof.
  unfold renderGroupWithSubGroups. entries_hdr.
  destruct (bool_decide _); [apply submseteq_nil_l|].
  rewrite <-(groupEntriesByProperty_perm es sp) at 2.
  apply rendered_entries_for. intros x. apply render_sub_group_entries.
Qed.

Lemma render_plugin_entries ok st nk es gb sb off :
  rendered_entries (out (render_plugin ok st nk es gb sb off)) ⊆+ es.
Proof.
  unfold render_plugin.
  destruct (js_if_str gb) as [gp|].
  - rewrite <-(groupEntriesByProperty_perm es gp) at 2.
    apply rendered_entries_for. intros [k es']. cbn [snd].
    destruct (js_if_str sb);
      [apply renderGroupWithSubGroups_entries|apply renderCustomGroup_entries].
  - destruct (js_if_str sb) as [sp|].
    + rewrite <-(groupEntriesByProperty_perm es sp) at 2.
      apply rendered_entries_for. intros [k es']. apply renderCustomGroup_entries.
    + apply for_renderEntry_entries.
Qed.

Lemma render_native_entries ok st gb sb off ng :
  rendered_entries (out (render_native ok st gb sb off ng)) ⊆+ ng_entries ng.
Proof.
  unfold render_native. destruct (ng_hasKey ng); [|apply render_plugin_entries].
  entries_hdr. destruct (bool_decide _); [apply submseteq_nil_l|apply render_plugin_entries].
Qed.

(** No exception when every entry renders normally. *)

Lemma renderCustomGroup_ok ok st nk gk es off :
  Forall (fun e => ok e = true) es -> threw (renderCustomGroup ok st nk gk es off) = false.
Proof.
  intros H. unfold renderCustomGroup. rewrite threw_seq_hdr.
  destruct (bool_decide _); [done|]. by rewrite for_renderEntry_ok.
Qed.

Lemma render_sub_group_ok ok st nk gk lvl sg :
  Forall (fun e => ok e = true) (snd sg) -> threw (render_sub_group ok st nk gk lvl sg) = false.
Proof.
  destruct sg as [k es]. cbn [snd]. intros H. unfold render_sub_group. rewrite threw_seq_hdr.
  destruct (bool_decide _); [done|]. by rewrite for_renderEntry_ok.
Qed.

Lemma renderGroupWithSubGroups_ok ok st nk gk es sp off :
  Forall (fun e => ok e = true) es -> threw (renderGroupWithSubGroups ok st nk gk es sp off) = false.
Proof.
  intros H. unfold renderGroupWithSubGroups. rewrite threw_seq_hdr.
  destruct (bool_decide _); [done|]. rewrite r_for_ok; [done|].
  eapply Forall_impl; [apply (Forall_buckets _ _ sp H)|]. intros g Hg.
  by apply render_sub_group_ok.
Qed.

Lemma render_plugin_ok ok st nk es gb sb off :
  Forall (fun e => ok e = true) es -> threw (render_plugin ok st nk es gb sb off) = false.
Proof.
  intros H. unfold render_plugin. destruct (js_if_str gb) as [gp|].
  - rewrite r_for_ok; [done|].
    eapply Forall_impl; [apply (Forall_buckets _ _ gp H)|]. intros [k es'] Hg. cbn [snd] in Hg.
    destruct (js_if_str sb);
      [by apply renderGroupWithSubGroups_ok|by apply renderCustomGroup_ok].
  - destruct (js_if_str sb) as [sp|].
    + rewrite r_for_ok; [done|].
      eapply Forall_impl; [apply (Forall_buckets _ _ sp H)|]. intros [k es'] Hg.
      by apply renderCustomGroup_ok.
    + by rewrite for_renderEntry_ok.
Qed.

Lemma render_native_ok ok st gb sb off ng :
  Forall (fun e => ok e = true) (ng_entries ng) -> threw (render_native ok st gb sb off ng) = false.
Proof.
  intros H. unfold render_native. destruct (ng_hasKey ng); [|by apply render_plugin_ok].
  rewrite threw_seq_hdr. destruct (bool_decide _); [done|]. by apply render_plugin_ok.
Qed.

(** Nothing collapsed and no exception: every entry, once. *)

Lemma renderCustomGroup_entries_empty ok nk gk es off :
  Forall (fun e => ok e = true) es ->
  rendered_entries (out (renderCustomGroup ok empty_collapse_state nk gk es off)) = es.
Proof.
  intros H. unfold renderCustomGroup. rewrite set_for_empty, bool_decide_eq_false_2 by set_solver.
  rewrite out_seq_hdr, rendered_entries_header, for_renderEntry_ok by done.
  apply rendered_entries_map.
Qed.

Lemma render_sub_group_entries_empty ok nk gk lvl sg :
  Forall (fun e => ok e = true) (snd sg) ->
  rendered_entries (out (render_sub_group ok empty_collapse_state nk gk lvl sg)) = snd sg.
Proof.
  destruct sg as [k es]. cbn [snd]. intros H. unfold render_sub_group.
  rewrite bool_decide_eq_false_2 by (cbn; set_solver).
  rewrite out_seq_hdr, rendered_entries_header, for_renderEntry_ok by done.
  apply rendered_entries_map.
Qed.

Lemma rendered_entries_for_perm {X} (f : X -> rendered) (g : X -> list Entry) xs :
  Forall (fun x => threw (f x) = false /\ rendered_entries (out (f x)) ≡ₚ g x) xs ->
  rendered_entries (out (r_for f xs)) ≡ₚ concat (map g xs).
Proof.
  intros H. rewrite r_for_ok.
  - cbn [out r_ret]. induction H as [|x xs [_ Hx] _ IH]; simpl; [done|].
    by rewrite rendered_entries_app, Hx, IH.
  - eapply Forall_impl; [exact H|]. intros x [Hx _]. exact Hx.
Qed.

Lemma renderGroupWithSubGroups_entries_empty ok nk gk es sp off :
  Forall (fun e => ok e = true) es ->
  rendered_entries (out (renderGroupWithSubGroups ok empty_collapse_state nk gk es sp off)) ≡ₚ es.
Proof.
  intros H. unfold renderGroupWithSubGroups.
  rewrite set_for_empty, bool_decide_eq_false_2 by set_solver.
  rewrite out_seq_hdr, rendered_entries_header.
  rewrite <-(groupEntriesByProperty_perm es sp) at 2.
  apply rendered_entries_for_perm.
  eapply Forall_impl; [apply (Forall_buckets _ _ sp H)|]. intros g Hg. split.
  - by apply render_sub_group_ok.
  - by rewrite render_sub_group_entries_empty.
Qed.

Lemma render_plugin_entries_empty ok nk es gb sb off :
  Forall (fun e => ok e = true) es ->
  rendered_entries (out (render_plugin ok empty_collapse_state nk es gb sb off)) ≡ₚ es.
Proof.
  intros H. unfold render_plugin. destruct (js_if_str gb) as [gp|].
  - rewrite <-(groupEntriesByProperty_perm es gp) at 2.
    apply rendered_entries_for_perm.
    eapply Forall_impl; [apply (Forall_buckets _ _ gp H)|]. intros [k es'] Hg. cbn [snd] in *.
    destruct (js_if_str sb).
    + split; [by apply renderGroupWithSubGroups_ok|by apply renderGroupWithSubGroups_entries_empty].
    + split; [by apply renderCustomGroup_ok|by rewrite renderCustomGroup_entries_empty].
  - destruct (js_if_str sb) as [sp|].
    + rewrite <-(groupEntriesByProperty_perm es sp) at 2.
      apply rendered_entries_for_perm.
      eapply Forall_impl; [apply (Forall_buckets _ _ sp H)|]. intros [k es'] Hg. cbn [snd] in *.
      split; [by apply renderCustomGroup_ok|by rewrite renderCustomGroup_entries_empty].
    + rewrite for_renderEntry_ok by done. cbn [out r_ret]. by rewrite rendered_entries_map.
Qed.

Lemma render_native_entries_empty ok gb sb off ng :
  Forall (fun e => ok e = true) (ng_entries ng) ->
  rendered_entries (out (render_native ok empty_collapse_state gb sb off ng)) ≡ₚ ng_entries ng.
Proof.
  intros H. unfold render_native. destruct (ng_hasKey ng); [|by apply render_plugin_entries_empty].
  rewrite bool_decide_eq_false_2 by (cbn; set_solver).
  rewrite out_seq_hdr, rendered_entries_header. by apply render_plugin_entries_empty.
Qed.

Lemma Forall_concat_entries (P : Entry -> Prop) gd :
  Forall P (concat (map ng_entries gd)) -> Forall (fun ng => Forall P (ng_entries ng)) gd.
Proof.
  induction gd as [|g gd IH]; simpl; intros H; constructor;
    apply Forall_app in H; [tauto|]. apply IH. tauto.
Qed.

Lemma rendered_entries_empty_tail (b : bool) :
  rendered_entries (if b then [NEmptyState] else []) = [].
Proof. by destruct b. Qed.

(** X19: whatever is collapsed, however the view groups and wherever a
    [renderEntry] throws, [onDataUpdated] renders no entry more often than
    the query returned it. *)
Theorem onDataUpdated_entries_sub (renderEntry_ok : Entry -> bool)
    (groupedData : list NativeGroup)
    (groupByProperty subGroupByProperty : option string) (st : CollapseState) :
  rendered_entries (out (onDataUpdated renderEntry_ok groupedData groupByProperty
                                       subGroupByProperty st))
    ⊆+ concat (map ng_entries groupedData).
Proof.
  unfold onDataUpdated. etrans; [apply rendered_entries_seq|].
  cbn [out r_ret]. rewrite rendered_entries_empty_tail, app_nil_r.
  apply rendered_entries_for. intros ng. apply render_native_entries.
Qed.

(** X3: when [renderEntry] returns normally for every entry of the query
    and nothing is collapsed, [onDataUpdated] renders every entry of every
    native group exactly once (up to order). *)
Theorem onDataUpdated_entries (renderEntry_ok : Entry -> bool)
    (groupedData : list NativeGroup)
    (groupByProperty subGroupByProperty : option string) :
  Forall (fun e => renderEntry_ok e = true) (concat (map ng_entries groupedData)) ->
  rendered_entries (out (onDataUpdated renderEntry_ok groupedData groupByProperty
                                       subGroupByProperty empty_collapse_state))
    ≡ₚ concat (map ng_entries groupedData).
Proof.
  intros H. apply Forall_concat_entries in H. unfold onDataUpdated.
  set (off := if existsb ng_hasKey groupedData then 1 else 0).
  set (tail := if Nat.eqb _ 0 then _ else _).
  rewrite (r_for_ok _ groupedData).
  2: { eapply Forall_impl; [exact H|]. intros ng Hng. by apply render_native_ok. }
  cbn [r_seq r_ret threw out].
  rewrite rendered_entries_app. subst tail. rewrite rendered_entries_empty_tail, app_nil_r.
  clearbody off. induction H as [|ng gd Hng _ IH]; simpl; [done|].
  rewrite rendered_entries_app, IH. by rewrite render_native_entries_empty.
Qed.

Definition hdr_ok (st : CollapseState) (n : node) : Prop :=
  match n with
  | NHeader lvl title _ isC (Some ck) =>
      isC = bool_decide (ck ∈ set_for lvl st) /\ (ck = title \/ ck <> "")
  | _ => True
  end.

Lemma append_nonempty_l (a b : string) : b <> "" -> a +:+ b <> "".
Proof. destruct a; simpl; [done|discriminate]. Qed.

Lemma collapseKey_ok nk gk : collapseKey nk gk = gk \/ collapseKey nk gk <> "".
Proof.
  unfold collapseKey. destruct (String.eqb nk "") eqn:E; [by left|right].
  apply String.eqb_neq in E. destruct nk; [done|discriminate].
Qed.

Lemma compoundKey_nonempty nk gk sk : compoundKey nk gk sk <> "".
Proof.
  unfold compoundKey. destruct (String.eqb nk "") eqn:E.
  - apply append_nonempty_l. discriminate.
  - apply String.eqb_neq in E. destruct nk; [done|discriminate].
Qed.

Lemma set_for_sub_level off st : set_for (level_at (S off)) st = collapsedSubGroups st.
Proof. by destruct off. Qed.

(** The list items of a [renderEntry] loop. *)
Lemma Forall_for_renderEntry (P : node -> Prop) ok es :
  (forall e, P (NEntry e)) -> Forall P (out (r_for (renderEntry ok) es)).
Proof. intros H. apply Forall_out_for. intros e. cbn. by constructor. Qed.

Lemma renderCustomGroup_hdr ok st nk gk es off :
  Forall (hdr_ok st) (out (renderCustomGroup ok st nk gk es off)).
Proof.
  unfold renderCustomGroup. rewrite out_seq_hdr. constructor.
  - split; [done|]. destruct (collapseKey_ok nk gk); auto.
  - destruct (bool_decide _); [constructor|]. by apply Forall_for_renderEntry.
Qed.

Lemma render_sub_group_hdr ok st nk gk off sg :
  Forall (hdr_ok st) (out (render_sub_group ok st nk gk (level_at (S off)) sg)).
Proof.
  destruct sg as [sk es]. unfold render_sub_group. rewrite out_seq_hdr. constructor.
  - cbn [hdr_ok]. rewrite set_for_sub_level. split; [done|]. right. apply compoundKey_nonempty.
  - destruct (bool_decide _); [constructor|]. by apply Forall_for_renderEntry.
Qed.

Lemma renderGroupWithSubGroups_hdr ok st nk gk es sp off :
  Forall (hdr_ok st) (out (renderGroupWithSubGroups ok st nk gk es sp off)).
Proof.
  unfold renderGroupWithSubGroups. rewrite out_seq_hdr. constructor.
  - split; [done|]. destruct (collapseKey_ok nk gk); auto.
  - destruct (bool_decide _); [constructor|].
    apply Forall_out_for. intros x. apply render_sub_group_hdr.
Qed.

Lemma render_plugin_hdr ok st nk es gb sb off :
  Forall (hdr_ok st) (out (render_plugin ok st nk es gb sb off)).
Proof.
  unfold render_plugin. destruct (js_if_str gb).
  - apply Forall_out_for. intros [k es'].
    destruct (js_if_str sb); [apply renderGroupWithSubGroups_hdr|apply renderCustomGroup_hdr].
  - destruct (js_if_str sb).
    + apply Forall_out_for. intros [k es']. apply renderCustomGroup_hdr.
    + by apply Forall_for_renderEntry.
Qed.

Lemma render_native_hdr ok st gb sb off ng :
  Forall (hdr_ok st) (out (render_native ok st gb sb off ng)).
Proof.
  unfold render_native. destruct (ng_hasKey ng); [|apply render_plugin_hdr].
  rewrite out_seq_hdr. constructor; [done|].
  destruct (bool_decide _); [constructor|apply render_plugin_hdr].
Qed.

Lemma onDataUpdated_hdr ok gd gb sb st : Forall (hdr_ok st) (out (onDataUpdated ok gd gb sb st)).
Proof.
  unfold onDataUpdated. apply Forall_out_seq.
  - apply Forall_out_for. intros ng. apply render_native_hdr.
  - cbn [out r_ret]. destruct (Nat.eqb _ 0); repeat constructor.
Qed.

(** X4: every header of a plugin group or sub-group that [onDataUpdated]
    renders (before any exception of [renderEntry]) reads its collapsed
    flag from the set and under the key its click handler updates: the
    click flips that key's membership, so the re-render shows the header
    with the opposite flag, and leaves every other key of that set as it
    was. *)
Theorem onDataUpdated_header_click (renderEntry_ok : Entry -> bool)
    (groupedData : list NativeGroup)
    (groupByProperty subGroupByProperty : option string) (st : CollapseState)
    (lvl : level) (title : string) (count : nat) (isC : bool) (ck : string) :
  NHeader lvl title count isC (Some ck)
    ∈ out (onDataUpdated renderEntry_ok groupedData groupByProperty subGroupByProperty st) ->
  isC = bool_decide (ck ∈ set_for lvl st) /\
  (ck ∈ set_for lvl (header_click isC title (Some ck) lvl st) <-> isC = false) /\
  (forall k, k <> ck ->
     k ∈ set_for lvl (header_click isC title (Some ck) lvl st) <-> k ∈ set_for lvl st).
Proof.
  intros Hin.
  pose proof (onDataUpdated_hdr renderEntry_ok groupedData groupByProperty subGroupByProperty st)
    as Hall.
  rewrite Forall_forall in Hall.
  destruct (Hall _ Hin) as [Hc Hk]. split; [done|].
  assert (Hkey : (if String.eqb ck "" then title else ck) = ck).
  { destruct (String.eqb ck "") eqn:E; [|done]. apply String.eqb_eq in E.
    destruct Hk as [Hk|Hk]; congruence. }
  unfold header_click. rewrite Hkey, set_for_update. split.
  - destruct isC; [set_solver|].
    split; [done|]. set_solver.
  - intros k Hne. destruct isC; set_solver.
Qed.

Lemma onDataUpdated_header_click_witness :
  NHeader primary "None" 1 false (Some "None")
    ∈ out (onDataUpdated tags_render_ok groupedData_one (Some "note.status") None
                         empty_collapse_state) /\
  false = bool_decide ("None" ∈ set_for primary empty_collapse_state) /\
  ("None" ∈ set_for primary (header_click false "None" (Some "None") primary empty_collapse_state)
     <-> false = false) /\
  (forall k, k <> "None" ->
     k ∈ set_for primary (header_click false "None" (Some "None") primary empty_collapse_state)
     <-> k ∈ set_for primary empty_collapse_state).
Proof.
  assert (Hin : NHeader primary "None" 1 false (Some "None")
                  ∈ out (onDataUpdated tags_render_ok groupedData_one (Some "note.status") None
                                       empty_collapse_state)).
  { vm_compute. apply elem_of_cons. by left. }
  split; [exact Hin|].
  exact (onDataUpdated_header_click _ _ _ _ _ _ _ _ _ _ Hin).
Defined.

Lemma onDataUpdated_entries_witness :
  Forall (fun e => tags_render_ok e = true) (concat (map ng_entries groupedData_one)) /\
  rendered_entries (out (onDataUpdated tags_render_ok groupedData_one (Some "note.status")
                                       (Some "file.folder") empty_collapse_state))
    ≡ₚ concat (map ng_entries groupedData_one).
Proof.
  assert (H : Forall (fun e => tags_render_ok e = true) (concat (map ng_entries groupedData_one))).
  { vm_compute. repeat constructor. }
  split; [exact H|]. exact (onDataUpdated_entries _ _ _ _ H).
Defined.

Definition not_empty_state (n : node) : Prop := n <> NEmptyState.

Lemma render_native_no_empty ok st gb sb off ng :
  Forall not_empty_state (out (render_native ok st gb sb off ng)).
Proof.
  pose proof (fun p => Forall_out_seq not_empty_state (r_ret [p])) as Hseq.
  assert (Hes : forall es, Forall not_empty_state (out (r_for (renderEntry ok) es)))
    by (intros es; by apply Forall_for_renderEntry).
  assert (Hc : forall nk gk es, Forall not_empty_state (out (renderCustomGroup ok st nk gk es off))).
  { intros nk gk es. unfold renderCustomGroup. rewrite out_seq_hdr. constructor; [done|].
    destruct (bool_decide _); [constructor|apply Hes]. }
  assert (Hs : forall nk gk es sp,
             Forall not_empty_state (out (renderGroupWithSubGroups ok st nk gk es sp off))).
  { intros nk gk es sp. unfold renderGroupWithSubGroups. rewrite out_seq_hdr. constructor; [done|].
    destruct (bool_decide _); [constructor|].
    apply Forall_out_for. intros [sk es']. unfold render_sub_group. rewrite out_seq_hdr.
    constructor; [done|]. destruct (bool_decide _); [constructor|apply Hes]. }
  assert (Hp : forall nk es, Forall not_empty_state (out (render_plugin ok st nk es gb sb off))).
  { intros nk es. unfold render_plugin. destruct (js_if_str gb).
    - apply Forall_out_for. intros [k es']. destruct (js_if_str sb); auto.
    - destruct (js_if_str sb); [|auto]. apply Forall_out_for. intros [k es']. auto. }
  unfold render_native. destruct (ng_hasKey ng); [|apply Hp].
  rewrite out_seq_hdr. constructor; [done|]. destruct (bool_decide _); [constructor|apply Hp].
Qed.

Lemma fold_total gd k :
  fold_left (fun n ng => n + length (ng_entries ng)) gd k = k + length (concat (map ng_entries gd)).
Proof.
  revert k. induction gd as [|g gd IH]; intros k; simpl; [lia|].
  rewrite IH, length_app. lia.
Qed.

(** X5: the ["No items to display"] element is rendered exactly when the
    query returned no entry at all; entries hidden in collapsed groups
    still count, so a view whose groups are all collapsed shows no such
    element, and an exception of [renderEntry] (which needs an entry)
    never hides it. *)
Theorem onDataUpdated_empty_state (renderEntry_ok : Entry -> bool)
    (groupedData : list NativeGroup)
    (groupByProperty subGroupByProperty : option string) (st : CollapseState) :
  NEmptyState ∈ out (onDataUpdated renderEntry_ok groupedData groupByProperty
                                   subGroupByProperty st) <->
  concat (map ng_entries groupedData) = [].
Proof.
  unfold onDataUpdated. rewrite fold_total.
  set (off := if existsb ng_hasKey groupedData then 1 else 0).
  set (R := r_for (render_native renderEntry_ok st groupByProperty subGroupByProperty off)
                  groupedData).
  assert (Hn : NEmptyState ∉ out R).
  { intros Hin. pose proof (Forall_out_for not_empty_state _ groupedData
        (render_native_no_empty renderEntry_ok st groupByProperty subGroupByProperty off)) as Hf.
    rewrite Forall_forall in Hf. by apply (Hf _ Hin). }
  assert (Hok : concat (map ng_entries groupedData) = [] -> threw R = false).
  { intros Hnil. subst R. rewrite r_for_ok; [done|].
    assert (Hf : Forall (fun _ : Entry => False) (concat (map ng_entries groupedData)))
      by (rewrite Hnil; constructor).
    apply Forall_concat_entries in Hf.
    eapply Forall_impl; [exact Hf|]. intros ng Hng. apply render_native_ok.
    destruct (ng_entries ng) eqn:E; [constructor|]. cbv beta in Hng. rewrite E in Hng.
    inversion Hng; contradiction. }
  unfold r_seq. destruct (threw R) eqn:Ht.
  - split; [done|]. intros Hnil. specialize (Hok Hnil). congruence.
  - cbn [out r_ret]. rewrite elem_of_app.
    destruct (Nat.eqb (0 + length (concat (map ng_entries groupedData))) 0) eqn:E.
    + apply Nat.eqb_eq in E. split; [intros _|intros _; right; by left].
      apply length_zero_iff_nil. lia.
    + apply Nat.eqb_neq in E. split.
      * intros [H|H]; [done|by apply elem_of_nil in H].
      * intros H. rewrite H in E. simpl in E. lia.
Qed.

(* ================================================================== *)
(** ** [truncateToLines] and [getPreview]: one line, bounded length     *)
(* ================================================================== *)

Lemma join_l_no_nl sep ls :
  existsb is_nl sep = false -> Forall (fun l => existsb is_nl l = false) ls ->
  existsb is_nl (join_l sep ls) = false.
Proof.
  intros Hs Hl. induction Hl as [|x ls Hx Hls IH]; [done|].
  destruct ls as [|y ls']; [done|].
  change (join_l sep (x :: y :: ls')) with (x ++ sep ++ join_l sep (y :: ls'))%list.
  rewrite !existsb_app, Hx, Hs, IH. done.
Qed.

Lemma trim_list_no_nl l : existsb is_nl l = false -> existsb is_nl (trim_list l) = false.
Proof.
  destruct (trim_list_infix l) as (a & b & Hl). rewrite Hl at 1.
  rewrite !existsb_app. intros H. apply orb_false_elim in H as [_ H].
  by apply orb_false_elim in H as [H _].
Qed.

Lemma firstn_no_nl k l : existsb is_nl l = false -> existsb is_nl (firstn k l) = false.
Proof.
  rewrite <-(firstn_skipn k l) at 1. rewrite existsb_app. intros H.
  by apply orb_false_elim in H as [H _].
Qed.

Lemma truncateToLines_bounds s n :
  existsb is_nl (list_ascii_of_string (truncateToLines s n)) = false /\
  length (list_ascii_of_string (truncateToLines s n)) <= n * 80 + 3.
Proof.
  unfold truncateToLines.
  set (stripped := trim_list (strip_tags (list_ascii_of_string s))).
  set (kept := firstn n (List.filter nonblank (split_lines stripped))).
  set (joined := join_l [" "%char] kept).
  rewrite list_ascii_of_string_of_list_ascii.
  assert (Hj : existsb is_nl joined = false).
  { apply join_l_no_nl; [done|]. apply Forall_firstn. apply Forall_forall. intros l Hl.
    apply list_elem_of_In, filter_In in Hl as [Hin _].
    pose proof (split_go_no_nl stripped [] eq_refl) as Hall.
    rewrite Forall_forall in Hall. apply Hall. by apply list_elem_of_In. }
  destruct (Nat.ltb (n * 80) (length joined)) eqn:Hlt.
  - rewrite existsb_app, length_app. split.
    + rewrite trim_list_no_nl; [done|]. by apply firstn_no_nl.
    + pose proof (length_trim_list (firstn (n * 80) joined)).
      pose proof (firstn_le_length (n * 80) joined). cbn. lia.
  - apply Nat.ltb_ge in Hlt. split; [done|lia].
Qed.

(** X6: the result of [truncateToLines s n] never contains a line feed
    and has at most [n*80 + 3] characters (the cut text and the three
    dots); with [n = 0] it is the empty string. *)
Theorem truncateToLines_one_line (s : string) (n : nat) :
  existsb is_nl (list_ascii_of_string (truncateToLines s n)) = false /\
  length (list_ascii_of_string (truncateToLines s n)) <= n * 80 + 3 /\
  truncateToLines s 0 = "".
Proof.
  destruct (truncateToLines_bounds s n) as [H1 H2]. split; [done|]. split; [done|].
  reflexivity.
Qed.

(** X7: every preview [getPreview] returns, from a configured property,
    from the frontmatter or from a description field, is a single line
    (no line feed) of at most [lines*80 + 3] characters. *)
Theorem getPreview_one_line (entry : Entry) (lines : nat) (previewProperty : option string)
    (p : string) :
  getPreview entry lines previewProperty = Some p ->
  existsb is_nl (list_ascii_of_string p) = false /\
  length (list_ascii_of_string p) <= lines * 80 + 3.
Proof.
  unfold getPreview. intros H.
  repeat case_match; simplify_eq; apply truncateToLines_bounds.
Qed.

Lemma getPreview_one_line_witness :
  getPreview entry_null_status 1 (Some "note.status") = Some "done" /\
  existsb is_nl (list_ascii_of_string "done") = false /\
  length (list_ascii_of_string "done") <= 1 * 80 + 3.
Proof.
  assert (H : getPreview entry_null_status 1 (Some "note.status") = Some "done") by reflexivity.
  split; [exact H|]. exact (getPreview_one_line _ _ _ _ H).
Defined.

(* ================================================================== *)
(** ** [formatRelativeDate]: future timestamps and the same day         *)
(* ================================================================== *)

Lemma days_of_diff diff :
  (diff / 1000 / 60 / 60 / 24 = diff / 86400000)%Z /\
  (diff / 1000 / 60 / 60 = diff / 3600000)%Z /\
  (diff / 1000 / 60 = diff / 60000)%Z.
Proof.
  rewrite !Z.div_div by lia. done.
Qed.

(** X8: a timestamp later than [now] (a modification time ahead of the
    clock) is never shown as ["Just now"]: the floored day count is
    negative and the text is ["<d>d ago"] with that negative [d], e.g.
    ["-1d ago"] for anything up to one day ahead. *)
Theorem formatRelativeDate_future (timestamp now : Z) :
  (now < timestamp)%Z ->
  ((now - timestamp) / 86400000 < 0)%Z /\
  formatRelativeDate timestamp now = pretty ((now - timestamp) / 86400000)%Z +:+ "d ago".
Proof.
  intros Hlt. destruct (days_of_diff (now - timestamp)) as (Hd & _ & _).
  assert (Hneg : ((now - timestamp) / 86400000 < 0)%Z).
  { apply Z.div_lt_upper_bound; lia. }
  split; [done|]. unfold formatRelativeDate. rewrite Hd.
  destruct (Z.eqb_spec ((now - timestamp) / 86400000) 0); [lia|].
  destruct (Z.eqb_spec ((now - timestamp) / 86400000) 1); [lia|].
  destruct (Z.ltb_spec ((now - timestamp) / 86400000) 7); [done|lia].
Qed.

Lemma formatRelativeDate_future_witness :
  (0 < 1000)%Z /\ ((0 - 1000) / 86400000 < 0)%Z /\
  formatRelativeDate 1000 0 = pretty ((0 - 1000) / 86400000)%Z +:+ "d ago".
Proof.
  assert (H : (0 < 1000)%Z) by lia.
  split; [exact H|]. exact (formatRelativeDate_future 1000 0 H).
Defined.

(** X9: within the last day the age is shown in floored whole minutes
    or hours of the elapsed milliseconds: ["Just now"] under one minute,
    ["<m>m ago"] under one hour, ["<h>h ago"] otherwise. *)
Theorem formatRelativeDate_same_day (timestamp now : Z) :
  (0 <= now - timestamp < 86400000)%Z ->
  formatRelativeDate timestamp now =
  (if (now - timestamp <? 60000)%Z then "Just now"
   else if (now - timestamp <? 3600000)%Z then pretty ((now - timestamp) / 60000)%Z +:+ "m ago"
   else pretty ((now - timestamp) / 3600000)%Z +:+ "h ago").
Proof.
  intros Hr. destruct (days_of_diff (now - timestamp)) as (Hd & Hh & Hm).
  unfold formatRelativeDate. rewrite Hd, Hh, Hm.
  assert (H0 : ((now - timestamp) / 86400000 = 0)%Z) by (apply Z.div_small; lia).
  rewrite H0. cbn [Z.eqb].
  destruct (Z.ltb_spec (now - timestamp) 60000).
  - assert (((now - timestamp) / 3600000 = 0)%Z) as -> by (apply Z.div_small; lia).
    assert (((now - timestamp) / 60000 = 0)%Z) as -> by (apply Z.div_small; lia). done.
  - destruct (Z.ltb_spec (now - timestamp) 3600000).
    + assert (((now - timestamp) / 3600000 = 0)%Z) as -> by (apply Z.div_small; lia).
      assert (Hm1 : (1 <= (now - timestamp) / 60000)%Z) by (apply Z.div_le_lower_bound; lia).
      destruct (Z.eqb_spec ((now - timestamp) / 60000) 0); [lia|]. done.
    + assert (Hh1 : (1 <= (now - timestamp) / 3600000)%Z) by (apply Z.div_le_lower_bound; lia).
      destruct (Z.eqb_spec ((now - timestamp) / 3600000) 0); [lia|]. done.
Qed.

Lemma formatRelativeDate_same_day_witness :
  (0 <= 5400000 - 0 < 86400000)%Z /\ formatRelativeDate 0 5400000 = "1h ago".
Proof.
  assert (H : (0 <= 5400000 - 0 < 86400000)%Z) by lia.
  split; [exact H|]. rewrite (formatRelativeDate_same_day 0 5400000 H). reflexivity.
Defined.

(* ================================================================== *)
(** ** [stripWikilinks]: length and texts without links                 *)
(* ================================================================== *)

Lemma close_rr_length l r : close_rr l = Some r -> length l = 2 + length r.
Proof.
  destruct l as [|a [|b l]]; cbn; try done.
  destruct (is_rbr a && is_rbr b); [|done]. intros [= <-]. done.
Qed.

Lemma link_loop_length link rest rep r :
  link_loop link rest = Some (rep, r) -> length rep + length r <= length link + length rest.
Proof.
  revert link. induction rest as [|c t IH]; intros link; [done|].
  cbn [link_loop]. pose proof (span_nonrbr_app t) as Ht.
  destruct (is_pipe c).
  - destruct (span_nonrbr t) as [al r0] eqn:Hsp. cbn [fst snd] in Ht.
    destruct al as [|x al'].
    + destruct (close_rr (c :: t)) eqn:Hc.
      * intros [= <- <-]. apply close_rr_length in Hc. cbn in *. lia.
      * destruct (is_rbr c); [done|]. intros H. apply IH in H.
        rewrite length_app in H. cbn in *. lia.
    + destruct (close_rr r0) eqn:Hr0.
      * intros [= <- <-]. apply close_rr_length in Hr0.
        apply (f_equal length) in Ht. rewrite length_app in Ht. cbn in *. lia.
      * destruct (close_rr (c :: t)) eqn:Hc.
        -- intros [= <- <-]. apply close_rr_length in Hc. cbn in *. lia.
        -- destruct (is_rbr c); [done|]. intros H. apply IH in H.
           rewrite length_app in H. cbn in *. lia.
  - destruct (close_rr (c :: t)) eqn:Hc.
    + intros [= <- <-]. apply close_rr_length in Hc. cbn in *. lia.
    + destruct (is_rbr c); [done|]. intros H. apply IH in H.
      rewrite length_app in H. cbn in *. lia.
Qed.

Lemma match_at_length_rep s rep r :
  match_at s = Some (rep, r) -> length rep + length r < length s.
Proof.
  destruct s as [|a [|b [|c t]]]; cbn [match_at]; try done.
  destruct (is_lbr a && is_lbr b && negb (is_rbr c)); [|done].
  intros H. apply link_loop_length in H. cbn in *. lia.
Qed.

Lemma strip_fuel_length f s : length (strip_fuel f s) <= length s.
Proof.
  revert s. induction f as [|f IH]; intros s; [done|].
  destruct s as [|c t]; cbn [strip_fuel]; [done|].
  destruct (match_at (c :: t)) as [[rep r]|] eqn:Hm.
  - apply match_at_length_rep in Hm. rewrite length_app. specialize (IH r). lia.
  - cbn [length]. specialize (IH t). lia.
Qed.

Lemma length_of_list_ascii l : String.length (string_of_list_ascii l) = length l.
Proof. induction l as [|c l IH]; simpl; by rewrite ?IH. Qed.

Lemma length_list_ascii str : length (list_ascii_of_string str) = String.length str.
Proof. induction str as [|c str IH]; simpl; by rewrite ?IH. Qed.

(** X10: [stripWikilinks] never makes a text longer. *)
Theorem stripWikilinks_length (str : string) :
  String.length (stripWikilinks str) <= String.length str.
Proof.
  unfold stripWikilinks, strip_list.
  rewrite length_of_list_ascii, <-length_list_ascii. apply strip_fuel_length.
Qed.

Lemma no_double_lbr_nomatch l : no_double_lbr l = true -> nomatch l = true.
Proof.
  induction l as [|a t IH]; [done|]. intros H. cbn [nomatch].
  destruct t as [|b t']; [done|].
  cbn [no_double_lbr] in H. apply andb_prop in H as [Hab Ht].
  rewrite IH by done. rewrite andb_true_r.
  destruct (is_lbr a) eqn:Ha.
  - destruct (is_lbr b) eqn:Hb; [done|]. by rewrite match_at_second_nonlbr.
  - by rewrite match_at_head_nonlbr.
Qed.

(** X11: a text in which no ['['] is directly followed by another ['['] is
    returned unchanged by [stripWikilinks]. *)
Theorem stripWikilinks_no_link (str : string) :
  no_double_lbr (list_ascii_of_string str) = true -> stripWikilinks str = str.
Proof.
  intros H. unfold stripWikilinks. rewrite nomatch_strip_id by (by apply no_double_lbr_nomatch).
  apply string_of_list_ascii_of_string.
Qed.

Lemma stripWikilinks_no_link_witness :
  no_double_lbr (list_ascii_of_string "[a] b") = true /\ stripWikilinks "[a] b" = "[a] b".
Proof.
  assert (H : no_double_lbr (list_ascii_of_string "[a] b") = true) by reflexivity.
  split; [exact H|]. exact (stripWikilinks_no_link _ H).
Defined.

(* ================================================================== *)
(** ** Group keys are never empty                                       *)
(* ================================================================== *)

Lemma vtg_nonempty (v : value) : valueToGroupString v <> "".
Proof.
  destruct v as [| |s|n|b|l|str]; cbn [valueToGroupString is_object_with_toString].
  - discriminate.
  - discriminate.
  - destruct (String.eqb (stripWikilinks s) "") eqn:E; [discriminate|].
    by apply String.eqb_neq.
  - apply pretty_Z_nonempty.
  - destruct b; discriminate.
  - destruct (String.eqb (js_String (VArr l)) "") eqn:E; [discriminate|].
    destruct (_ || _); [discriminate|].
    apply stripWikilinks_nonempty. by apply String.eqb_neq.
  - destruct (String.eqb (js_String (VObj str)) "") eqn:E; [discriminate|].
    destruct (_ || _); [discriminate|].
    apply stripWikilinks_nonempty. by apply String.eqb_neq.
Qed.

Lemma parent_or_nonempty e fb n :
  (forall m, fb = Some m -> m <> "") -> parent_or e fb = Some n -> n <> "".
Proof.
  unfold parent_or. intros Hfb. destruct (parent_name e) as [m|].
  - destruct (String.eqb_spec m ""); [apply Hfb|]. by intros [= <-].
  - apply Hfb.
Qed.

(** X12: the group key [getPropertyValueAsString] resolves for an entry
    is never the empty string, whichever step produces it. *)
Theorem getPropertyValueAsString_nonempty (entry : Entry) (propertyId : string) :
  getPropertyValueAsString entry propertyId <> "".
Proof.
  unfold getPropertyValueAsString.
  assert (Hlast : (if String.eqb propertyId "file.folder"
                   then match parent_or entry (Some "Root") with Some n => n | None => "Root" end
                   else "None") <> "").
  { destruct (String.eqb _ _); [|discriminate].
    destruct (parent_or entry (Some "Root")) as [n|] eqn:Hp; [|discriminate].
    apply (parent_or_nonempty entry (Some "Root") n); [|done]. intros m [= <-]. discriminate. }
  destruct (getValue entry propertyId) as [|v]; [|destruct (truthy v); [apply vtg_nonempty|]];
  cbv beta iota zeta;
  (destruct (String.prefix "note." propertyId);
   [destruct (frontmatter_field entry (slice5 propertyId)); [apply vtg_nonempty|exact Hlast]
   |exact Hlast]).
Qed.

(* ================================================================== *)
(** ** [renderGroupWithSubGroups]: sub-group counts                     *)
(* ================================================================== *)

Lemma header_count_sum_app lvl a b :
  header_count_sum lvl (a ++ b)%list = header_count_sum lvl a + header_count_sum lvl b.
Proof.
  unfold header_count_sum. rewrite fold_right_app.
  generalize (fold_right (fun n acc => match n with
                           | NHeader l _ c _ _ => if level_eqb l lvl then c + acc else acc
                           | _ => acc end) 0 b) as k. intros k.
  induction a as [|n a IH]; simpl; [done|]. rewrite IH.
  destruct n; [destruct (level_eqb _ _); lia|done|done].
Qed.

Lemma header_count_sum_entries lvl es : header_count_sum lvl (map NEntry es) = 0.
Proof. induction es; simpl; auto. Qed.

Lemma level_eqb_refl l : level_eqb l l = true.
Proof. by destruct l. Qed.

Lemma header_count_sum_concat lvl {X} (F : X -> list node) xs :
  header_count_sum lvl (concat (map F xs)) = sum_list (map (fun x => header_count_sum lvl (F x)) xs).
Proof.
  induction xs as [|x xs IH]; simpl; [done|]. by rewrite header_count_sum_app, IH.
Qed.

Lemma sum_list_length_concat (gs : list (string * list Entry)) :
  sum_list (map (fun g => length (snd g)) gs) = length (concat (map snd gs)).
Proof. induction gs as [|g gs IH]; simpl; [done|]. by rewrite IH, length_app. Qed.

Lemma header_count_sum_cons_hdr lvl t c b k l :
  header_count_sum lvl (NHeader lvl t c b k :: l) = c + header_count_sum lvl l.
Proof. unfold header_count_sum at 1. cbn [fold_right]. by rewrite level_eqb_refl. Qed.

Lemma render_sub_group_out ok st nk gk lvl sk es :
  Forall (fun e => ok e = true) es ->
  out (render_sub_group ok st nk gk lvl (sk, es)) =
  NHeader lvl sk (length es) (bool_decide (compoundKey nk gk sk ∈ collapsedSubGroups st))
          (Some (compoundKey nk gk sk))
    :: (if bool_decide (compoundKey nk gk sk ∈ collapsedSubGroups st) then [] else map NEntry es).
Proof.
  intros H. unfold render_sub_group. rewrite out_seq_hdr.
  destruct (bool_decide _); [done|]. by rewrite for_renderEntry_ok.
Qed.

(** X13: when a group is sub-grouped and [renderEntry] returns normally
    for its entries, the counts on its sub-group headers add up to the
    number of its entries (the count its own header shows); a collapsed
    group shows no sub-group header. *)
Theorem renderGroupWithSubGroups_counts (renderEntry_ok : Entry -> bool) (st : CollapseState)
    (nativeKey groupKey : string) (entries : list Entry) (subGroupProperty : string)
    (levelOffset : nat) :
  levelOffset <= 1 ->
  Forall (fun e => renderEntry_ok e = true) entries ->
  header_count_sum (level_at (S levelOffset))
    (out (renderGroupWithSubGroups renderEntry_ok st nativeKey groupKey entries subGroupProperty
                                   levelOffset)) =
  (if bool_decide (collapseKey nativeKey groupKey ∈ set_for (level_at levelOffset) st)
   then 0 else length entries).
Proof.
  intros Hoff Hok. unfold renderGroupWithSubGroups. rewrite out_seq_hdr.
  change (NHeader ?a ?b ?c ?d ?e :: ?l) with ([NHeader a b c d e] ++ l)%list.
  rewrite header_count_sum_app.
  assert (Hl : header_count_sum (level_at (S levelOffset))
                 [NHeader (level_at levelOffset) groupKey (length entries)
                    (bool_decide (collapseKey nativeKey groupKey ∈ set_for (level_at levelOffset) st))
                    (Some (collapseKey nativeKey groupKey))] = 0).
  { destruct levelOffset as [|[|]]; [done|done|lia]. }
  rewrite Hl. destruct (bool_decide _); [done|]. cbn [plus].
  pose proof (Forall_buckets _ _ subGroupProperty Hok) as Hb.
  rewrite r_for_ok.
  2: { eapply Forall_impl; [exact Hb|]. intros g Hg. by apply render_sub_group_ok. }
  cbn [out r_ret]. rewrite header_count_sum_concat.
  rewrite <-(Permutation_length (groupEntriesByProperty_perm entries subGroupProperty)).
  rewrite <-sum_list_length_concat.
  revert Hb. generalize (groupEntriesByProperty entries subGroupProperty) as gs. intros gs Hb.
  induction Hb as [|[sk es] gs Hg _ IH]; [done|]. cbn [map sum_list snd]. rewrite IH.
  f_equal. cbn [snd] in Hg. rewrite render_sub_group_out by exact Hg.
  rewrite header_count_sum_cons_hdr.
  destruct (bool_decide _); [simpl; lia|]. rewrite header_count_sum_entries. unfold id. lia.
Qed.

Lemma renderGroupWithSubGroups_counts_witness :
  0 <= 1 /\ Forall (fun e => tags_render_ok e = true) [entry_null_status] /\
  header_count_sum (level_at 1)
    (out (renderGroupWithSubGroups tags_render_ok empty_collapse_state "" "None"
                                   [entry_null_status] "file.folder" 0)) =
  (if bool_decide (collapseKey "" "None" ∈ set_for (level_at 0) empty_collapse_state)
   then 0 else length [entry_null_status]).
Proof.
  assert (H : 0 <= 1) by lia.
  assert (Hok : Forall (fun e => tags_render_ok e = true) [entry_null_status]).
  { vm_compute. repeat constructor. }
  split; [exact H|]. split; [exact Hok|].
  exact (renderGroupWithSubGroups_counts _ _ _ _ _ _ 0 H Hok).
Defined.

(* ================================================================== *)
(** ** [getThumbnail]: where a thumbnail comes from                     *)
(* ================================================================== *)

Lemma thumb_from_fields_source {TFile} (resolve : string -> option TFile)
    (getR : TFile -> string) fm fields u :
  thumb_from_fields resolve getR fm fields = Some u ->
  (exists p f, resolve p = Some f /\ u = getR f) \/
  (exists field, field ∈ fields /\ fm_lookup fm field = Some (VStr u) /\
                 String.prefix "http" u = true).
Proof.
  induction fields as [|field rest IH]; cbn [thumb_from_fields]; [done|].
  assert (Hr : thumb_from_fields resolve getR fm rest = Some u ->
               (exists p f, resolve p = Some f /\ u = getR f) \/
               (exists field', field' ∈ field :: rest /\ fm_lookup fm field' = Some (VStr u) /\
                               String.prefix "http" u = true)).
  { intros H. destruct (IH H) as [?|(f' & Hf & ?)]; [by left|right].
    exists f'. split; [by apply elem_of_cons; right|done]. }
  destruct (fm_lookup fm field) as [v|] eqn:Hv; [|exact Hr].
  destruct v as [| |v| | | |]; try exact Hr.
  destruct (String.eqb v ""); [exact Hr|].
  destruct (String.prefix "[[" v && ends_with_rr v).
  - destruct (resolve (slice_link v)) as [f|] eqn:Hf; [|exact Hr].
    intros [= <-]. left. eauto.
  - destruct (String.prefix "http" v) eqn:Hh; cbn [negb].
    + intros [= <-]. right. exists field. split; [by apply elem_of_cons; left|done].
    + destruct (resolve v) as [f|] eqn:Hf; [|exact Hr]. intros [= <-]. left. eauto.
Qed.

Lemma thumb_from_embeds_source {TFile} (resolve : string -> option TFile)
    (getR : TFile -> string) embeds u :
  thumb_from_embeds resolve getR embeds = Some u -> exists p f, resolve p = Some f /\ u = getR f.
Proof.
  induction embeds as [|link rest IH]; cbn [thumb_from_embeds]; [done|].
  destruct (negb (String.eqb link "") && is_image_link link); [|exact IH].
  destruct (resolve link) as [f|] eqn:Hf; [|exact IH]. intros [= <-]. eauto.
Qed.

(** X14: a thumbnail [getThumbnail] returns is either the resource path
    of a file the link resolver found (for a frontmatter image field, a
    wikilink in it, or an embedded image) or, unchanged, the string of
    one of the frontmatter fields [image], [cover], [thumbnail], [banner],
    [feature_image] when it starts with ["http"]; an unresolved relative
    path is never returned. *)
Theorem getThumbnail_source {TFile : Type} (getFirstLinkpathDest : string -> option TFile)
    (getResourcePath : TFile -> string) (entry : Entry) (embeds : option (list string))
    (u : string) :
  getThumbnail getFirstLinkpathDest getResourcePath entry embeds = Some u ->
  (exists p f, getFirstLinkpathDest p = Some f /\ u = getResourcePath f) \/
  (exists field, field ∈ imageFields /\ frontmatter_field entry field = Some (VStr u) /\
                 String.prefix "http" u = true).
Proof.
  unfold getThumbnail, frontmatter_field.
  destruct (fileCache entry) as [c|].
  - destruct (frontmatter c) as [fm|].
    + destruct (thumb_from_fields getFirstLinkpathDest getResourcePath fm imageFields) eqn:Ht.
      * intros [= <-]. by apply thumb_from_fields_source in Ht.
      * destruct embeds as [es|]; [|done]. intros H. left.
        by apply thumb_from_embeds_source in H.
    + destruct embeds as [es|]; [|done]. intros H. left.
      by apply thumb_from_embeds_source in H.
  - done.
Qed.

Lemma getThumbnail_source_witness :
  getThumbnail (fun _ : string => @None unit) (fun _ => "") entry_image_url None
    = Some "https://example.org/a.png" /\
  ((exists p f, (fun _ : string => @None unit) p = Some f /\ "https://example.org/a.png" = (fun _ => "") f) \/
   (exists field, field ∈ imageFields /\
      frontmatter_field entry_image_url field = Some (VStr "https://example.org/a.png") /\
      String.prefix "http" "https://example.org/a.png" = true)).
Proof.
  assert (H : getThumbnail (fun _ : string => @None unit) (fun _ => "") entry_image_url None
                = Some "https://example.org/a.png") by reflexivity.
  split; [exact H|]. exact (getThumbnail_source _ _ _ _ _ H).
Defined.

(* ================================================================== *)
(** ** [getTags] and the tag labels of [renderEntry]                    *)
(* ================================================================== *)

(** X15: an element of a frontmatter [tags] array that is not a string
    (a number, a boolean, [null], a nested array) is passed on by
    [getTags] unchecked, and building its label in [renderEntry]
    ([tag.startsWith("#")]) throws. *)
Theorem getTags_non_string_label (entry : Entry) (l : list value) (v : value) :
  frontmatter_field entry "tags" = Some (VArr l) -> v ∈ l -> (forall s, v <> VStr s) ->
  v ∈ getTags entry /\ tag_label v = None.
Proof.
  intros Hf Hv Hns. split.
  - rewrite getTags_eq. apply elem_of_app. left.
    unfold frontmatter_tags. unfold frontmatter_field in Hf.
    destruct (fileCache entry) as [c|]; [|done].
    destruct (frontmatter c) as [fm|]; [|done]. rewrite Hf. done.
  - destruct v; try done. by destruct (Hns s).
Qed.

Lemma getTags_non_string_label_witness :
  frontmatter_field entry_numeric_tag "tags" = Some (VArr [VNum 2024]) /\
  VNum 2024 ∈ [VNum 2024] /\ (forall s, VNum 2024 <> VStr s) /\
  VNum 2024 ∈ getTags entry_numeric_tag /\ tag_label (VNum 2024) = None.
Proof.
  assert (H1 : frontmatter_field entry_numeric_tag "tags" = Some (VArr [VNum 2024])) by reflexivity.
  assert (H2 : VNum 2024 ∈ [VNum 2024]) by (apply elem_of_cons; by left).
  assert (H3 : forall s, VNum 2024 <> VStr s) by discriminate.
  split; [exact H1|]. split; [exact H2|]. split; [exact H3|].
  exact (getTags_non_string_label _ _ _ H1 H2 H3).
Defined.

(* ================================================================== *)
(** ** Plain text passes through                                        *)
(* ================================================================== *)

Lemma no_double_lbr_tail c t : no_double_lbr (c :: t) = true -> no_double_lbr t = true.
Proof. destruct t as [|d t]; [done|]. cbn [no_double_lbr]. by intros [_ H]%andb_prop. Qed.

Lemma no_double_lbr_match_at c t : no_double_lbr (c :: t) = true -> match_at (c :: t) = None.
Proof.
  destruct t as [|d t]; [done|]. cbn [no_double_lbr]. intros [Hcd _]%andb_prop.
  destruct (is_lbr c) eqn:Hc.
  - destruct (is_lbr d) eqn:Hd; [done|]. by apply match_at_second_nonlbr.
  - by apply match_at_head_nonlbr.
Qed.

Lemma rtl_fuel_plain f pending s :
  no_double_lbr s = true -> rtl_fuel f pending s = flush (pending ++ s)%list.
Proof.
  revert pending s. induction f as [|f IH]; intros pending s Hs; [done|].
  destruct s as [|c t]; cbn [rtl_fuel]; [by rewrite app_nil_r|].
  pose proof (no_double_lbr_match_at c t Hs) as Hm. rewrite match_at_groups in Hm.
  destruct (match_groups (c :: t)); [done|].
  rewrite IH by (by apply no_double_lbr_tail in Hs). by rewrite <-app_assoc.
Qed.

(** X16: a text in which no ['['] is directly followed by another ['['] is
    rendered by [renderTextWithLinks] as one text node holding the whole
    text, and an empty text as nothing. *)
Theorem renderTextWithLinks_plain (text : string) :
  no_double_lbr (list_ascii_of_string text) = true ->
  renderTextWithLinks text =
  (if String.eqb text "" then [] else [SText (list_ascii_of_string text)]).
Proof.
  intros H. unfold renderTextWithLinks. rewrite rtl_fuel_plain by done.
  destruct text; reflexivity.
Qed.

Lemma renderTextWithLinks_plain_witness :
  no_double_lbr (list_ascii_of_string "a [b]") = true /\
  renderTextWithLinks "a [b]" =
  (if String.eqb "a [b]" "" then [] else [SText (list_ascii_of_string "a [b]")]).
Proof.
  assert (H : no_double_lbr (list_ascii_of_string "a [b]") = true) by reflexivity.
  split; [exact H|]. exact (renderTextWithLinks_plain _ H).
Defined.

Lemma strip_tags_no_lt l : existsb is_lt l = false -> strip_tags l = l.
Proof.
  unfold strip_tags. induction l as [|c t IH]; [done|]. cbn [existsb].
  intros [Hc Ht]%orb_false_elim. cbn [strip_tags_go]. rewrite Hc. by rewrite IH.
Qed.

Lemma split_go_no_nl_single cur l :
  existsb is_nl l = false -> split_go cur l = [(rev cur ++ l)%list].
Proof.
  revert cur. induction l as [|c t IH]; intros cur; cbn [existsb].
  - intros _. simpl. by rewrite app_nil_r.
  - intros [Hc Ht]%orb_false_elim. cbn [split_go]. rewrite Hc.
    assert (Hs : split_go (c :: cur) t = [(rev cur ++ c :: t)%list]).
    { rewrite IH by done. simpl. by rewrite <-app_assoc. }
    destruct (is_cr c); [|exact Hs].
    destruct t as [|d t']; [exact Hs|].
    cbn [existsb] in Ht. apply orb_false_elim in Ht as [Hd _]. rewrite Hd. exact Hs.
Qed.

(** X17: a non-empty single-line text with no ['<'] and no surrounding
    whitespace, of at most [n*80] characters, is returned unchanged by
    [truncateToLines s n] for every [n >= 1]. *)
Theorem truncateToLines_plain (s : string) (n : nat) :
  1 <= n ->
  list_ascii_of_string s <> [] ->
  existsb is_lt (list_ascii_of_string s) = false ->
  existsb is_nl (list_ascii_of_string s) = false ->
  trim_list (list_ascii_of_string s) = list_ascii_of_string s ->
  length (list_ascii_of_string s) <= n * 80 ->
  truncateToLines s n = s.
Proof.
  intros Hn Hne Hlt Hnl Htr Hlen. unfold truncateToLines.
  rewrite strip_tags_no_lt, Htr by done.
  unfold split_lines. rewrite split_go_no_nl_single by done. cbn [rev app].
  assert (Hnb : nonblank (list_ascii_of_string s) = true).
  { unfold nonblank. rewrite Htr. by destruct (list_ascii_of_string s). }
  cbn [List.filter]. rewrite Hnb.
  assert (Hf : firstn n [list_ascii_of_string s] = [list_ascii_of_string s]).
  { destruct n as [|n']; [lia|]. simpl. by rewrite firstn_nil. }
  rewrite Hf. cbn [join_l].
  assert (Nat.ltb (n * 80) (length (list_ascii_of_string s)) = false) as -> by (apply Nat.ltb_ge; lia).
  apply string_of_list_ascii_of_string.
Qed.

Lemma truncateToLines_plain_witness :
  1 <= 1 /\ list_ascii_of_string "Hello world" <> [] /\
  existsb is_lt (list_ascii_of_string "Hello world") = false /\
  existsb is_nl (list_ascii_of_string "Hello world") = false /\
  trim_list (list_ascii_of_string "Hello world") = list_ascii_of_string "Hello world" /\
  length (list_ascii_of_string "Hello world") <= 1 * 80 /\
  truncateToLines "Hello world" 1 = "Hello world".
Proof.
  assert (H1 : 1 <= 1) by lia.
  assert (H2 : list_ascii_of_string "Hello world" <> []) by discriminate.
  assert (H3 : existsb is_lt (list_ascii_of_string "Hello world") = false) by reflexivity.
  assert (H4 : existsb is_nl (list_ascii_of_string "Hello world") = false) by reflexivity.
  assert (H5 : trim_list (list_ascii_of_string "Hello world") = list_ascii_of_string "Hello world")
    by reflexivity.
  assert (H6 : length (list_ascii_of_string "Hello world") <= 1 * 80) by (simpl; lia).
  repeat (split; [assumption|]).
  exact (truncateToLines_plain _ _ H1 H2 H3 H4 H5 H6).
Defined.

(* ================================================================== *)
(** ** Sub-group collapse keys are ambiguous                            *)
(* ================================================================== *)

Lemma string_app_assoc (a b c : string) : a +:+ (b +:+ c) = (a +:+ b) +:+ c.
Proof.
  induction a as [|x a IH]; [done|].
  change (String x (a +:+ b +:+ c) = String x ((a +:+ b) +:+ c)). by rewrite IH.
Qed.

(** X18: without native grouping, the sub-group [s1:s2] of group [g] and
    the sub-group [s2] of group [g:s1] get the same collapse key
    [g:s1:s2]; clicking the header of the first therefore collapses (or
    expands) the second as well. *)
Theorem compoundKey_ambiguous (g s1 s2 : string) (levelOffset : nat) (st : CollapseState) :
  compoundKey "" g (s1 +:+ ":" +:+ s2) = compoundKey "" (g +:+ ":" +:+ s1) s2 /\
  (compoundKey "" (g +:+ ":" +:+ s1) s2
     ∈ collapsedSubGroups (click_sub_group "" g (s1 +:+ ":" +:+ s2) levelOffset st)
   <-> compoundKey "" (g +:+ ":" +:+ s1) s2 ∉ collapsedSubGroups st).
Proof.
  assert (Heq : compoundKey "" g (s1 +:+ ":" +:+ s2) = compoundKey "" (g +:+ ":" +:+ s1) s2).
  { unfold compoundKey. cbn [String.eqb]. by rewrite <-!string_app_assoc. }
  split; [done|].
  unfold click_sub_group, header_click. rewrite Heq.
  rewrite (proj2 (String.eqb_neq _ _) (compoundKey_nonempty "" (g +:+ ":" +:+ s1) s2)).
  rewrite <-(set_for_sub_level levelOffset (update_set _ _ st)), set_for_update,
          set_for_sub_level.
  destruct (bool_decide_reflect (compoundKey "" (g +:+ ":" +:+ s1) s2 ∈ collapsedSubGroups st));
    set_solver.
Qed.
